(** * NeuroM: dendrogram layout and morphology checks

    A shallow embedding of [neurom/analysis/dendrogram.py] and
    [neurom/check/morphtree.py].

    Numbers.  The Python code computes with binary64 floats.  Every float
    denotes a rational, so coordinates, radii and tolerances are values of
    [Q] and the arithmetic is the exact one.  The horizontal offsets of the
    layout are integer multiples of half the horizontal spacing (20 for the
    spacing (40., 0.) that [generate] uses), which binary64 computes without
    rounding, so the comparison that decides whether a connector is drawn
    is the same here and in Python.  Functions that leave the rationals
    (the Euclidean norm, the length of a segment) are parameters of the
    sections that use them; the tree queries that live outside the two
    source files are modelled from the spec, and marked so. *)

From Stdlib Require Import String List ZArith QArith Qabs Qminmax Lia Lqa Bool.
From Stdlib Require Import Permutation Sorted.
Import ListNotations.

Set Implicit Arguments.

Local Open Scope Q_scope.

(** ** Rationals as booleans *)

(** [a > b] and [a < b] on floats, as the tests of the source use them. *)
Definition Qgtb (a b : Q) : bool := negb (Qle_bool a b).
Definition Qltb (a b : Q) : bool := negb (Qle_bool b a).
Definition Qgeb (a b : Q) : bool := Qle_bool b a.

(** ** Data model *)

(** A sample row: position, radius and type tag ([COLS.X .. COLS.TYPE]). *)
Record Row : Type := mkRow {
  row_x : Q;
  row_y : Q;
  row_z : Q;
  row_r : Q;
  row_type : Z
}.

Module COLS.
Definition X := row_x.
Definition Y := row_y.
Definition Z := row_z.
Definition R := row_r.
Definition TYPE := row_type.
End COLS.

(** [neurom.core.tree.Tree]: a value and the children, in order.  The
    dendrogram works on trees with one row per node, the checks on trees
    with one section (a sequence of rows) per node. *)
Unset Elimination Schemes.
Inductive Tree (A : Type) : Type :=
| Node (value : A) (children : list (Tree A)).
Set Elimination Schemes.

Definition value {A} (t : Tree A) : A := match t with Node v _ => v end.
Definition children {A} (t : Tree A) : list (Tree A) :=
  match t with Node _ cs => cs end.

(** Induction over a tree together with all its children. *)
Section TreeInd.
Variable A : Type.
Variable P : Tree A -> Prop.
Hypothesis HNode : forall v cs, Forall P cs -> P (Node v cs).

Fixpoint Tree_ind' (t : Tree A) : P t :=
  match t with
  | Node v cs =>
      HNode v
        ((fix go (l : list (Tree A)) : Forall P l :=
            match l with
            | [] => Forall_nil P
            | c :: l' => Forall_cons c (Tree_ind' c) (go l')
            end) cs)
  end.
End TreeInd.

(** ** Tree metrics *)

Section Metrics.
Variable A : Type.

(** Modelled from the spec: [n_terminations] of
    [neurom.analysis.morphtree] is not among the sources.  A termination
    is a leaf node (no children); the count is over the subtree. *)
Fixpoint n_terminations (t : Tree A) : nat :=
  match t with
  | Node _ [] => 1
  | Node _ cs => list_sum (map n_terminations cs)
  end.

(** Modelled from the spec: [n_segments] of [neurom.analysis.morphtree]
    is not among the sources.  With one row per node a segment is the
    line between a node and one of its children; the count is the number
    of parent-child edges of the tree. *)
Fixpoint n_segments (t : Tree A) : nat :=
  match t with
  | Node _ cs => list_sum (map (fun c => S (n_segments c)) cs)
  end.

(** Modelled from the spec: [n_bifurcations] of
    [neurom.analysis.morphtree] is not among the sources.  A bifurcation
    is a node with two or more children. *)
Fixpoint n_bifurcations (t : Tree A) : nat :=
  match t with
  | Node _ cs =>
      ((if 2 <=? length cs then 1 else 0)
       + list_sum (map n_bifurcations cs))%nat
  end.

(** The same count with the narrow reading, exactly two children. *)
Fixpoint n_bifurcations_strict (t : Tree A) : nat :=
  match t with
  | Node _ cs =>
      ((if length cs =? 2 then 1 else 0)
       + list_sum (map n_bifurcations_strict cs))%nat
  end.

End Metrics.

(** ** Exceptions *)

Inductive exn : Type :=
| IndexError
| AttributeError.

(** A computation that returns a value or raises. *)
Definition Exc (A : Type) : Type := (exn + A)%type.

Notation "'do' x <- c ; k" :=
  (match c with inl e => inl e | inr x => k end)
  (at level 10, x name, c at level 100, k at level 200, only parsing).

(** [l[i]] for a non-negative index: out of range raises IndexError. *)
Definition getitem {A} (l : list A) (i : nat) : Exc A :=
  match nth_error l i with
  | Some a => inr a
  | None => inl IndexError
  end.

(** [l[-1]]: the last element, IndexError on an empty sequence. *)
Definition getitem_last {A} (l : list A) : Exc A :=
  match l with
  | [] => inl IndexError
  | a :: l' => inr (last l' a)
  end.

(** [l[i] = a]: out of range raises IndexError. *)
Definition setitem {A} (l : list A) (i : nat) (a : A) : Exc (list A) :=
  if (i <? length l)%nat
  then inr (firstn i l ++ a :: skipn (S i) l)
  else inl IndexError.

(** ** neurom/analysis/dendrogram.py *)

(** A polygon is an array of vertices (x, y); the layout writes four. *)
Definition vertex : Type := (Q * Q)%type.
Definition polygon : Type := list vertex.

(** One entry of [np.zeros([n, 4, 2])]. *)
Definition zero_polygon : polygon := repeat (0, 0) 4.

(** What a Dendrogram can be built on: a Tree, a Neuron (its neurites),
    or any other object, which may or may not have a [neurites]
    attribute. *)
Inductive PyObj : Type :=
| PyTree (t : Tree Row)
| PyNeuron (neurites : list (Tree Row))
| PyOther (neurites : option (list (Tree Row))).

Definition isinstance_Tree (obj : PyObj) : bool :=
  match obj with PyTree _ => true | _ => false end.

Definition isinstance_Neuron (obj : PyObj) : bool :=
  match obj with PyNeuron _ => true | _ => false end.

(** [obj.neurites]: AttributeError when the object has none; a Tree has
    no such attribute. *)
Definition getattr_neurites (obj : PyObj) : Exc (list (Tree Row)) :=
  match obj with
  | PyNeuron ns => inr ns
  | PyOther (Some ns) => inr ns
  | _ => inl AttributeError
  end.

Definition _total_rectangles (tree : Tree Row) : nat :=
  (n_segments tree + n_bifurcations tree * 2)%nat.

Definition _n_rectangles (obj : PyObj) : nat :=
  match obj with
  | PyTree t => _total_rectangles t
  | PyNeuron neurites => list_sum (map _total_rectangles neurites)
  | PyOther _ => 0%nat
  end.

(** [displace]: [t] is added to every vertex of every polygon (in place
    in the source; the displaced array is the result here).  The sums are
    exact here and rounded to binary64 in the source, so only what does
    not depend on the rounding is stated of it. *)
Definition displace (rectangles : list polygon) (t : Q * Q) : list polygon :=
  map (map (fun v : vertex => (fst v + fst t, snd v + snd t))) rectangles.

Definition _vertical_segment (old_offs new_offs spacing radii : Q * Q)
  : polygon :=
  [ (fst new_offs - fst radii, snd old_offs + snd spacing);
    (fst new_offs - snd radii, snd new_offs);
    (fst new_offs + snd radii, snd new_offs);
    (fst new_offs + fst radii, snd old_offs + snd spacing) ].

Definition _horizontal_segment (old_offs new_offs spacing : Q * Q)
  (diameter : Q) : polygon :=
  [ (fst old_offs, snd old_offs + snd spacing);
    (fst new_offs, snd old_offs + snd spacing);
    (fst new_offs, snd old_offs + snd spacing - diameter);
    (fst old_offs, snd old_offs + snd spacing - diameter) ].

(** An int that meets a float in an arithmetic expression. *)
Definition of_int (n : nat) : Q := inject_Z (Z.of_nat n).

(** [_spacingx] updates [max_dims] in place and returns the left end of
    the node's horizontal span; here the updated list is returned with
    it. *)
Definition _spacingx (node : Tree Row) (max_dims : Q * Q)
  (xoffset xspace : Q) : Q * (Q * Q) :=
  let x_spacing := of_int (n_terminations node) * xspace in
  let max_dims :=
    if Qgtb x_spacing (fst max_dims)
    then (x_spacing, snd max_dims) else max_dims in
  (xoffset - x_spacing / 2, max_dims).

Definition _update_offsets (start_x : Q) (spacing : Q * Q)
  (terminations : nat) (offsets : Q * Q) (length : Q) : Q * Q :=
  (start_x + fst spacing * of_int terminations / 2,
   snd offsets + snd spacing * 2 + length).

(** The Dendrogram object.  [_trees] holds views of [_rectangles]: the
    whole array, or the slice [start:stop] of one neurite. *)
Record Dendrogram : Type := mkDendrogram {
  _obj : PyObj;
  _n : nat;
  scale : Q;
  _max_dims : Q * Q;
  _trees : list (nat * nat);
  _dims : list (Q * Q);
  _rectangles : list polygon
}.

Definition set_n (self : Dendrogram) (n : nat) : Dendrogram :=
  mkDendrogram (_obj self) n (scale self) (_max_dims self) (_trees self)
    (_dims self) (_rectangles self).

Definition set_max_dims (self : Dendrogram) (d : Q * Q) : Dendrogram :=
  mkDendrogram (_obj self) (_n self) (scale self) d (_trees self)
    (_dims self) (_rectangles self).

Definition set_trees (self : Dendrogram) (ts : list (nat * nat))
  : Dendrogram :=
  mkDendrogram (_obj self) (_n self) (scale self) (_max_dims self) ts
    (_dims self) (_rectangles self).

Definition set_dims (self : Dendrogram) (ds : list (Q * Q)) : Dendrogram :=
  mkDendrogram (_obj self) (_n self) (scale self) (_max_dims self)
    (_trees self) ds (_rectangles self).

Definition set_rectangles (self : Dendrogram) (rs : list polygon)
  : Dendrogram :=
  mkDendrogram (_obj self) (_n self) (scale self) (_max_dims self)
    (_trees self) (_dims self) rs.

(** [Dendrogram.__init__]; the line it prints is left out. *)
Definition Dendrogram_init (obj : PyObj) : Dendrogram :=
  mkDendrogram obj 0 1 (0, 0) [] []
    (repeat zero_polygon (_n_rectangles obj)).

(** [self._rectangles[self._n] = p]. *)
Definition store (self : Dendrogram) (p : polygon) : Exc Dendrogram :=
  do rs <- setitem (_rectangles self) (_n self) p;
  inr (set_rectangles self rs).

(** [self._n += 1]. *)
Definition incr_n (self : Dendrogram) : Dendrogram :=
  set_n self (S (_n self)).

Section Layout.

(** [neurom.analysis.morphmath.segment_length] is not among the sources:
    the length of the segment between two rows, a float. *)
Variable segment_length : Row -> Row -> Q.

(** [Dendrogram._generate_dendro].  The list [max_dims] is the object
    [self._max_dims] throughout, so both are the one field of the state. *)
Fixpoint _generate_dendro (self : Dendrogram) (current_node : Tree Row)
  (spacing offsets : Q * Q) {struct current_node} : Exc Dendrogram :=
  match current_node with
  | Node cur_value cur_children =>
      let (start_x, max_dims) :=
        _spacingx current_node (_max_dims self) (fst offsets) (fst spacing) in
      let self := set_max_dims self max_dims in
      let radii_0 := COLS.R cur_value * scale self in
      (fix for_child (cs : list (Tree Row)) (self : Dendrogram)
         (start_x : Q) {struct cs} : Exc Dendrogram :=
         match cs with
         | [] => inr self
         | child :: rest =>
             let ln := segment_length cur_value (value child) in
             let radii := (radii_0, COLS.R (value child) * scale self) in
             let terminations := n_terminations child in
             let new_offsets :=
               _update_offsets start_x spacing terminations offsets ln in
             do self <-
               store self (_vertical_segment offsets new_offsets spacing radii);
             let self := incr_n self in
             let self :=
               if Qgtb (snd offsets + snd spacing * 2 + ln)
                    (snd (_max_dims self))
               then set_max_dims self
                      (fst (_max_dims self),
                       snd offsets + snd spacing * 2 + ln)
               else self in
             do self <- _generate_dendro self child spacing new_offsets;
             let start_x := start_x + of_int terminations * fst spacing in
             do self <-
               (if negb (Qeq_bool (fst offsets) (fst new_offsets))
                then
                  do self <-
                    store self
                      (_horizontal_segment offsets new_offsets spacing 0);
                  inr (incr_n self)
                else inr self);
             for_child rest self start_x
         end) cur_children self start_x
  end.

(** [Dendrogram.generate].  The recursion limit it raises to 100000 is
    not modelled: the recursion is over the tree, whatever its depth. *)
Definition generate (self : Dendrogram) : Exc Dendrogram :=
  let spacing := (40, 0) in
  let offsets := (0, 0) in
  match _obj self with
  | PyTree t =>
      do self <- _generate_dendro self t spacing offsets;
      inr (set_trees self [(0%nat, length (_rectangles self))])
  | obj =>
      do neurites <- getattr_neurites obj;
      (fix for_neurite (ns : list (Tree Row)) (self : Dendrogram)
         (n_previous : nat) {struct ns} : Exc Dendrogram :=
         match ns with
         | [] => inr self
         | neurite :: ns' =>
             do self <- _generate_dendro self neurite spacing offsets;
             let self :=
               set_trees self (_trees self ++ [(n_previous, _n self)]) in
             let self := set_dims self (_dims self ++ [_max_dims self]) in
             let self := set_max_dims self (0, 0) in
             for_neurite ns' self (_n self)
         end) neurites self 0%nat
  end.

(** [Dendrogram.data]. *)
Definition data (self : Dendrogram) : list polygon := _rectangles self.

End Layout.

(** ** neurom/check/morphtree.py *)

(** A node of a neurite as the checks see it: the tree below it and its
    [parent] attribute ([None] at a root). *)
Record SNode : Type := mkSNode {
  parent : option (Tree (list Row));
  node : Tree (list Row)
}.

(** Modelled from the spec: [iter_nodes] of [neurom.core.tree] is not
    among the sources.  It is the depth-first traversal of the nodes of a
    tree, a node before its children, each child's parent being the node
    it hangs from. *)
Fixpoint ipreorder (up : option (Tree (list Row))) (t : Tree (list Row))
  {struct t} : list SNode :=
  match t with
  | Node _ cs => mkSNode up t :: flat_map (ipreorder (Some t)) cs
  end.

Definition iter_nodes (neurite : SNode) : list SNode :=
  ipreorder (parent neurite) (node neurite).

(** The row [sec[i]] at an index the loop has in range. *)
Definition zero_row : Row := mkRow 0 0 0 0 0%Z.
Definition row_at (sec : list Row) (i : nat) : Row := nth i sec zero_row.

(** The loop over [point_id] in [is_monotonic]: true when it reaches
    [return False]. *)
Definition section_rises (sec : list Row) (tol : Q) : bool :=
  existsb
    (fun point_id =>
       Qgtb (COLS.R (row_at sec (point_id + 1)))
            (COLS.R (row_at sec point_id) + tol))
    (seq 0 (length sec - 1)).

(** The loop over the nodes in [is_monotonic]. *)
Fixpoint is_monotonic_nodes (nodes : list SNode) (tol : Q) : Exc bool :=
  match nodes with
  | [] => inr true
  | n :: rest =>
      let sec := value (node n) in
      if section_rises sec tol then inr false
      else
        match parent n with
        | Some p =>
            do first <- getitem sec 0;
            do last <- getitem_last (value p);
            if Qgtb (COLS.R first) (COLS.R last + tol) then inr false
            else is_monotonic_nodes rest tol
        | None => is_monotonic_nodes rest tol
        end
  end.

Definition is_monotonic (neurite : SNode) (tol : Q) : Exc bool :=
  is_monotonic_nodes (iter_nodes neurite) tol.

(** Vectors of three coordinates. *)
Definition vec : Type := (Q * Q * Q)%type.

Definition vx (v : vec) : Q := fst (fst v).
Definition vy (v : vec) : Q := snd (fst v).
Definition vz (v : vec) : Q := snd v.

Definition vadd (a b : vec) : vec := (vx a + vx b, vy a + vy b, vz a + vz b).
Definition vsub (a b : vec) : vec := (vx a - vx b, vy a - vy b, vz a - vz b).
Definition vscale (k : Q) (a : vec) : vec := (k * vx a, k * vy a, k * vz a).

(** [np.dot] of two vectors. *)
Definition dot (a b : vec) : Q := vx a * vx b + vy a * vy b + vz a * vz b.

(** [coords], the first three values of a row (and [points[:, :3]]). *)
Definition coords (r : Row) : vec := (COLS.X r, COLS.Y r, COLS.Z r).

(** Modelled from the spec: the [points] attribute of a neurite is not
    among the sources; it is the full point set, the rows of every
    node. *)
Definition points (neurite : SNode) : list Row :=
  flat_map (fun n => value (node n)) (iter_nodes neurite).

(** [np.sort] on a one-dimensional array, ascending. *)
Fixpoint np_insert (x : Q) (l : list Q) : list Q :=
  match l with
  | [] => [x]
  | y :: l' => if Qle_bool x y then x :: l else y :: np_insert x l'
  end.

Fixpoint np_sort (l : list Q) : list Q :=
  match l with
  | [] => []
  | x :: l' => np_insert x (np_sort l')
  end.

(** The value of a float64 division.  Dividing by zero does not raise in
    numpy: it gives an infinity, or nan for 0/0. *)
Inductive float64 : Type :=
| Finite (q : Q)
| PosInf
| NegInf
| NaN.

Definition np_divide (a b : Q) : float64 :=
  if Qeq_bool b 0 then
    if Qltb 0 a then PosInf else if Qltb a 0 then NegInf else NaN
  else Finite (a / b).

(** [v < t] for a finite [t]. *)
Definition np_less (v : float64) (t : Q) : bool :=
  match v with
  | Finite q => Qltb q t
  | NegInf => true
  | PosInf => false
  | NaN => false
  end.

Section Flat.

(** [neurom.analysis.morphmath.principal_direction_extent] is not among
    the sources: the extents of a point set along its principal
    directions. *)
Variable principal_direction_extent : list vec -> list Q.

Definition is_flat (neurite : SNode) (tol : Q) (method : string)
  : Exc bool :=
  let ext := principal_direction_extent (map coords (points neurite)) in
  if String.eqb method "ratio" then
    let sorted_ext := np_sort ext in
    do e0 <- getitem sorted_ext 0;
    do e1 <- getitem sorted_ext 1;
    inr (np_less (np_divide e0 e1) tol)
  else inr (existsb (fun e => Qltb e tol) ext).

(** The default of [method]. *)
Definition is_flat_default (neurite : SNode) (tol : Q) : Exc bool :=
  is_flat neurite tol "tolerance".

End Flat.

(** A segment: two consecutive rows. *)
Definition segment : Type := (Row * Row)%type.

(** [zip(segs, segs[1:])]. *)
Definition pair (segs : list Row) : list segment := combine segs (tl segs).

Definition max_radius (seg : segment) : Q :=
  if Qgtb (COLS.R (snd seg)) (COLS.R (fst seg))
  then COLS.R (snd seg) else COLS.R (fst seg).

(** [np.allclose(a, b)] with numpy's defaults rtol = 1e-05 and
    atol = 1e-08: every |a - b| is at most atol + rtol * |b|. *)
Definition rtol : Q := 1 # 100000.
Definition atol : Q := 1 # 100000000.

Definition isclose (a b : Q) : bool :=
  Qle_bool (Qabs (a - b)) (atol + rtol * Qabs b).

Definition allclose (a b : vec) : bool :=
  isclose (vx a) (vx b) && isclose (vy a) (vy b) && isclose (vz a) (vz b).

Definition is_not_zero_seg (seg : segment) : bool :=
  negb (allclose (coords (fst seg)) (coords (snd seg))).

Definition is_in_the_same_verse (seg1 seg2 : segment) : bool :=
  let v1 := vsub (coords (snd seg2)) (coords (fst seg2)) in
  let v2 := vsub (coords (snd seg1)) (coords (fst seg1)) in
  Qgeb (dot v1 v2) 0.

Definition is_seg2_within_seg1_radius (dist : Q) (seg1 seg2 : segment)
  : bool :=
  Qle_bool dist (max_radius seg1 + max_radius seg2).

(** [enumerate]. *)
Definition enumerate {A} (l : list A) : list (nat * A) :=
  combine (seq 0 (length l)) l.

Section BackTracking.

(** [np.linalg.norm] of a vector: a square root, so not a function of the
    rationals; its float value is. *)
Variable norm : vec -> Q.

(** [neurom.analysis.morphmath.vector_projection] is not among the
    sources: the projection of the first vector on the second. *)
Variable vector_projection : vec -> vec -> vec.

(** The vectors that [is_seg1_overlapping_with_seg2] computes. *)
Definition seg_C (seg2 : segment) : vec :=
  vscale (1 # 2) (vadd (coords (fst seg2)) (coords (snd seg2))).

Definition seg_CP (seg1 seg2 : segment) : vec :=
  vsub (coords (snd seg1)) (seg_C seg2).

Definition seg_S1S2 (seg2 : segment) : vec :=
  vsub (coords (snd seg2)) (coords (fst seg2)).

Definition seg_prj (seg1 seg2 : segment) : vec :=
  vector_projection (seg_CP seg1 seg2) (seg_S1S2 seg2).

Definition is_seg1_overlapping_with_seg2 (seg1 seg2 : segment) : bool :=
  let s1 := coords (fst seg2) in
  let s2 := coords (snd seg2) in
  let C := vscale (1 # 2) (vadd s1 s2) in
  let P := coords (snd seg1) in
  let CP := vsub P C in
  let S1S2 := vsub s2 s1 in
  let prj := vector_projection CP S1S2 in
  if negb (is_seg2_within_seg1_radius (norm (vsub CP prj)) seg1 seg2)
  then false
  else Qltb (norm prj) ((55 # 100) * norm S1S2).

Definition is_inside_cylinder (seg1 seg2 : segment) : bool :=
  negb (is_in_the_same_verse seg1 seg2)
  && is_seg1_overlapping_with_seg2 seg1 seg2.

(** The two inner loops of [is_back_tracking] over the segments of one
    section: true when they reach [return True]. *)
Definition section_back_tracks (sec : list Row) : bool :=
  let segment_pairs := filter is_not_zero_seg (pair sec) in
  existsb
    (fun i_seg1 : nat * segment =>
       let (i, seg1) := i_seg1 in
       existsb (fun seg2 => is_inside_cylinder seg1 seg2)
         (firstn (i + 1) segment_pairs))
    (enumerate (tl segment_pairs)).

Definition is_back_tracking (neurite : SNode) : bool :=
  existsb (fun snode => section_back_tracks (value (node snode)))
    (filter (fun snode => (2 <? length (value (node snode)))%nat)
       (iter_nodes neurite)).

End BackTracking.

(** ** The polygons a layout writes, in order *)

(** Which of the two writes of the loop body produced a polygon. *)
Inductive kind : Type :=
| Vertical
| Horizontal.

(** [buf] with the entries from index [n] on replaced by [ps]. *)
Definition splice {A} (buf : list A) (n : nat) (ps : list A) : list A :=
  firstn n buf ++ ps ++ skipn (n + length ps) buf.

Section Trace.

Variable segment_length : Row -> Row -> Q.
Variable scale_ : Q.
Variable spacing : Q * Q.

(** The left end of a node's span, the value [_spacingx] returns. *)
Definition span_start (t : Tree Row) (offsets : Q * Q) : Q :=
  fst offsets - of_int (n_terminations t) * fst spacing / 2.

Section Children.

Variable rec : Tree Row -> Q * Q -> list (kind * polygon).
Variable cur_value : Row.
Variable offsets : Q * Q.

(** The offsets the loop of [_generate_dendro] hands to each child. *)
Fixpoint children_offsets (cs : list (Tree Row)) (start_x : Q)
  : list (Q * Q) :=
  match cs with
  | [] => []
  | child :: rest =>
      _update_offsets start_x spacing (n_terminations child) offsets
        (segment_length cur_value (value child))
      :: children_offsets rest
           (start_x + of_int (n_terminations child) * fst spacing)
  end.

(** The polygon of the edge to [child], and its connector. *)
Definition edge_polygon (child : Tree Row) (new_offsets : Q * Q)
  : polygon :=
  _vertical_segment offsets new_offsets spacing
    (COLS.R cur_value * scale_, COLS.R (value child) * scale_).

Definition connector (new_offsets : Q * Q) : list (kind * polygon) :=
  if negb (Qeq_bool (fst offsets) (fst new_offsets))
  then [(Horizontal, _horizontal_segment offsets new_offsets spacing 0)]
  else [].

(** The writes of the loop over the children, [rec] being the writes of
    the recursive call. *)
Fixpoint children_trace (cs : list (Tree Row)) (start_x : Q)
  : list (kind * polygon) :=
  match cs with
  | [] => []
  | child :: rest =>
      let new_offsets :=
        _update_offsets start_x spacing (n_terminations child) offsets
          (segment_length cur_value (value child)) in
      (Vertical, edge_polygon child new_offsets)
      :: rec child new_offsets
      ++ connector new_offsets
      ++ children_trace rest
           (start_x + of_int (n_terminations child) * fst spacing)
  end.

End Children.

(** The writes of one call of [_generate_dendro], in order. *)
Fixpoint emitted (t : Tree Row) (offsets : Q * Q) {struct t}
  : list (kind * polygon) :=
  match t with
  | Node v cs => children_trace emitted v offsets cs (span_start t offsets)
  end.

(** The offsets of the children of a node laid out at [offsets]. *)
Definition child_offsets (t : Tree Row) (offsets : Q * Q) : list (Q * Q) :=
  children_offsets (value t) offsets (children t) (span_start t offsets).

(** The loop over the children in [_generate_dendro], by itself. *)
Section Loop.

Variable cur_value : Row.
Variable offsets : Q * Q.
Variable radii_0 : Q.

Fixpoint for_child (cs : list (Tree Row)) (self : Dendrogram) (start_x : Q)
  {struct cs} : Exc Dendrogram :=
  match cs with
  | [] => inr self
  | child :: rest =>
      let ln := segment_length cur_value (value child) in
      let radii := (radii_0, COLS.R (value child) * scale self) in
      let terminations := n_terminations child in
      let new_offsets :=
        _update_offsets start_x spacing terminations offsets ln in
      do self <-
        store self (_vertical_segment offsets new_offsets spacing radii);
      let self := incr_n self in
      let self :=
        if Qgtb (snd offsets + snd spacing * 2 + ln) (snd (_max_dims self))
        then set_max_dims self
               (fst (_max_dims self), snd offsets + snd spacing * 2 + ln)
        else self in
      do self <- _generate_dendro segment_length self child spacing new_offsets;
      let start_x := start_x + of_int terminations * fst spacing in
      do self <-
        (if negb (Qeq_bool (fst offsets) (fst new_offsets))
         then
           do self <-
             store self (_horizontal_segment offsets new_offsets spacing 0);
           inr (incr_n self)
         else inr self);
      for_child rest self start_x
  end.

End Loop.

End Trace.

(** Every node has at most two children. *)
Fixpoint is_binary (t : Tree Row) : bool :=
  match t with
  | Node _ cs => (length cs <=? 2)%nat && forallb is_binary cs
  end.

(** * Properties *)

Unset Implicit Arguments.

(** ** Comparisons of rationals *)

Lemma Qgtb_spec a b : Qgtb a b = true <-> b < a.
Proof.
  unfold Qgtb. rewrite negb_true_iff. split; intros H.
  - apply Qnot_le_lt. intros L. apply Qle_bool_iff in L. congruence.
  - destruct (Qle_bool a b) eqn:E; [|reflexivity].
    apply Qle_bool_iff in E. exfalso. exact (Qlt_not_le _ _ H E).
Qed.

Lemma Qltb_spec a b : Qltb a b = true <-> a < b.
Proof. unfold Qltb. exact (Qgtb_spec b a). Qed.

Lemma Qltb_false a b : Qltb a b = false <-> b <= a.
Proof.
  unfold Qltb. rewrite negb_false_iff. apply Qle_bool_iff.
Qed.

Lemma Qgtb_false a b : Qgtb a b = false <-> a <= b.
Proof. exact (Qltb_false b a). Qed.

Lemma Qgeb_spec a b : Qgeb a b = true <-> b <= a.
Proof. unfold Qgeb. apply Qle_bool_iff. Qed.

(** Halving, as a multiplication, for the linear arithmetic tactic. *)
Ltac halves :=
  unfold Qdiv in *; change (/ 2) with (1 # 2) in *.

Lemma Qeq_bool_false a b : Qeq_bool a b = false <-> ~ a == b.
Proof.
  split.
  - intros H E. apply Qeq_bool_iff in E. congruence.
  - intros H. destruct (Qeq_bool a b) eqn:E; [|reflexivity].
    apply Qeq_bool_iff in E. contradiction.
Qed.

(** ** Tree metrics *)

Lemma n_terminations_pos A (t : Tree A) : (1 <= n_terminations t)%nat.
Proof.
  induction t as [v cs IH] using Tree_ind'.
  destruct cs as [|c cs]; [simpl; lia|].
  inversion IH as [|? ? Hc _]; subst.
  change (1 <= n_terminations c + list_sum (map (@n_terminations A) cs))%nat.
  lia.
Qed.

Lemma n_terminations_node A (v : A) (cs : list (Tree A)) :
  cs <> [] ->
  n_terminations (Node v cs) = list_sum (map (@n_terminations A) cs).
Proof. destruct cs; [congruence|reflexivity]. Qed.

(** ** Writing into the buffer *)

Lemma splice_nil A (buf : list A) n : splice buf n [] = buf.
Proof.
  unfold splice. simpl. rewrite Nat.add_0_r. apply firstn_skipn.
Qed.

Lemma splice_length A (buf ps : list A) n :
  (n + length ps <= length buf)%nat ->
  length (splice buf n ps) = length buf.
Proof.
  intros H. unfold splice.
  rewrite !length_app, length_firstn, length_skipn. lia.
Qed.

Lemma setitem_splice A (buf : list A) n p :
  (n < length buf)%nat -> setitem buf n p = inr (splice buf n [p]).
Proof.
  intros H. unfold setitem, splice.
  destruct (Nat.ltb_spec n (length buf)) as [_|L]; [|lia].
  simpl. now rewrite Nat.add_1_r.
Qed.

Lemma setitem_overflow A (buf : list A) n p :
  (length buf <= n)%nat -> setitem buf n p = inl IndexError.
Proof.
  intros H. unfold setitem.
  destruct (Nat.ltb_spec n (length buf)) as [L|_]; [lia|reflexivity].
Qed.

Lemma firstn_app_exact A (l1 l2 : list A) n :
  length l1 = n -> firstn n (l1 ++ l2) = l1.
Proof.
  intros <-. induction l1 as [|a l1 IH]; simpl.
  - reflexivity.
  - now rewrite IH.
Qed.

Lemma skipn_app_exact A (l1 l2 : list A) n k :
  length l1 = n -> skipn (n + k) (l1 ++ l2) = skipn k l2.
Proof.
  intros <-. induction l1 as [|a l1 IH]; simpl; auto.
Qed.

Lemma splice_splice A (buf ps qs : list A) n :
  (n + length ps <= length buf)%nat ->
  splice (splice buf n ps) (n + length ps) qs = splice buf n (ps ++ qs).
Proof.
  intros H. unfold splice.
  assert (L : length (firstn n buf ++ ps) = (n + length ps)%nat)
    by (rewrite length_app, length_firstn; lia).
  rewrite (app_assoc (firstn n buf) ps).
  rewrite (firstn_app_exact _ _ _ _ L).
  rewrite (skipn_app_exact _ _ _ _ (length qs) L).
  rewrite skipn_skipn, length_app, <- !app_assoc.
  do 4 f_equal. lia.
Qed.

Lemma nth_error_splice A (buf ps : list A) n i :
  (n + length ps <= length buf)%nat ->
  (i < length ps)%nat ->
  nth_error (splice buf n ps) (n + i) = nth_error ps i.
Proof.
  intros H Hi. unfold splice.
  assert (L : length (firstn n buf) = n)
    by (rewrite length_firstn; lia).
  rewrite nth_error_app2 by lia.
  rewrite L. replace (n + i - n)%nat with i by lia.
  now rewrite nth_error_app1.
Qed.

(** ** The fill pass writes the trace *)

(** [self'] is [self] after the polygons [E] were written at the write
    index; nothing but the index, the buffer and the running maximum
    changed. *)
Definition wrote (self self' : Dendrogram) (E : list (kind * polygon))
  : Prop :=
  _n self' = (_n self + length E)%nat
  /\ _rectangles self' = splice (_rectangles self) (_n self) (map snd E)
  /\ scale self' = scale self
  /\ _obj self' = _obj self
  /\ _trees self' = _trees self
  /\ _dims self' = _dims self.

(** The buffer of [self] has room for [k] more polygons. *)
Definition room (self : Dendrogram) (k : nat) : Prop :=
  (_n self + k <= length (_rectangles self))%nat.

Lemma wrote_refl self : wrote self self [].
Proof.
  unfold wrote. simpl. rewrite splice_nil, Nat.add_0_r. tauto.
Qed.

Lemma wrote_max_dims self self' E d :
  wrote self self' E -> wrote self (set_max_dims self' d) E.
Proof. unfold wrote. simpl. tauto. Qed.

Lemma wrote_buffer_length self self' E :
  room self (length E) -> wrote self self' E ->
  length (_rectangles self') = length (_rectangles self).
Proof.
  unfold room, wrote. intros R (_ & -> & _).
  apply splice_length. now rewrite length_map.
Qed.

Lemma wrote_trans a b c E1 E2 :
  room a (length E1) ->
  wrote a b E1 -> wrote b c E2 -> wrote a c (E1 ++ E2).
Proof.
  unfold room, wrote.
  intros R (Hn & Hr & Hs & Ho & Ht & Hd) (Hn' & Hr' & Hs' & Ho' & Ht' & Hd').
  repeat split; try congruence.
  - rewrite Hn', Hn, length_app. lia.
  - rewrite Hr', Hr, Hn, map_app.
    rewrite <- (length_map snd E1).
    apply splice_splice. now rewrite length_map.
Qed.

Lemma store_ok self p k :
  room self 1 ->
  exists s, store self p = inr s /\ wrote self (incr_n s) [(k, p)].
Proof.
  unfold room, store. intros R.
  rewrite setitem_splice by lia.
  eexists. split; [reflexivity|].
  unfold wrote. simpl. repeat split. lia.
Qed.

Lemma store_overflow self p :
  ~ room self 1 -> store self p = inl IndexError.
Proof.
  unfold room, store. intros R.
  rewrite setitem_overflow by lia. reflexivity.
Qed.

Section Run.

Variable segment_length : Row -> Row -> Q.
Variable spacing : Q * Q.

(** What a call of [_generate_dendro] does to the object when the write
    index is within the buffer: it writes its trace when the buffer has
    room for all of it, and raises IndexError when it has not. *)
Definition run_spec (t : Tree Row) : Prop :=
  forall self offsets,
    room self 0 ->
    let E := emitted segment_length (scale self) spacing t offsets in
    (room self (length E) ->
     exists self',
       _generate_dendro segment_length self t spacing offsets = inr self'
       /\ wrote self self' E)
    /\ (~ room self (length E) ->
        _generate_dendro segment_length self t spacing offsets
        = inl IndexError).

Lemma _generate_dendro_unfold self v cs offsets :
  _generate_dendro segment_length self (Node v cs) spacing offsets
  = for_child segment_length spacing v offsets (COLS.R v * scale self) cs
      (set_max_dims self
         (snd (_spacingx (Node v cs) (_max_dims self) (fst offsets)
                 (fst spacing))))
      (span_start spacing (Node v cs) offsets).
Proof. reflexivity. Qed.

(** The second write of the loop body. *)
Definition write_connector (offsets new_offsets : Q * Q)
  (self : Dendrogram) : Exc Dendrogram :=
  if negb (Qeq_bool (fst offsets) (fst new_offsets))
  then
    match store self (_horizontal_segment offsets new_offsets spacing 0) with
    | inl e => inl e
    | inr s => inr (incr_n s)
    end
  else inr self.

Lemma connector_spec offsets new_offsets self :
  room self 0 ->
  (room self (length (connector spacing offsets new_offsets)) ->
   exists self',
     write_connector offsets new_offsets self = inr self'
     /\ wrote self self' (connector spacing offsets new_offsets))
  /\ (~ room self (length (connector spacing offsets new_offsets)) ->
      write_connector offsets new_offsets self = inl IndexError).
Proof.
  unfold connector, write_connector. intros R0.
  destruct (negb (Qeq_bool (fst offsets) (fst new_offsets))); simpl.
  - split; intros R.
    + destruct (store_ok self
                  (_horizontal_segment offsets new_offsets spacing 0)
                  Horizontal R) as (s & -> & W).
      eauto.
    + now rewrite store_overflow.
  - split; intros R.
    + exists self. split; [reflexivity|apply wrote_refl].
    + exfalso. apply R. exact R0.
Qed.

Lemma room_after self self' E k :
  room self (length E + k) -> wrote self self' E -> room self' k.
Proof.
  intros R W. unfold room.
  rewrite (wrote_buffer_length self self' E); [|unfold room in *; lia|exact W].
  destruct W as (-> & _). unfold room in R. lia.
Qed.

Lemma room_before self self' E k :
  room self (length E) -> wrote self self' E -> room self' k ->
  room self (length E + k).
Proof.
  intros R W R'. unfold room in R'.
  rewrite (wrote_buffer_length self self' E R W) in R'.
  destruct W as (Hn & _). unfold room. lia.
Qed.

Lemma room_less self j k : (j <= k)%nat -> room self k -> room self j.
Proof. unfold room. lia. Qed.

Lemma room_dec self k : {room self k} + {~ room self k}.
Proof.
  unfold room.
  destruct (le_lt_dec (_n self + k) (length (_rectangles self)));
    [left|right]; lia.
Qed.

Lemma for_child_spec v offsets cs :
  Forall run_spec cs ->
  forall self start_x,
    room self 0 ->
    (room self
       (length
          (children_trace segment_length (scale self) spacing
             (emitted segment_length (scale self) spacing) v offsets cs
             start_x)) ->
     exists self',
       for_child segment_length spacing v offsets (COLS.R v * scale self)
         cs self start_x = inr self'
       /\ wrote self self'
            (children_trace segment_length (scale self) spacing
               (emitted segment_length (scale self) spacing) v offsets cs
               start_x))
    /\ (~ room self
           (length
              (children_trace segment_length (scale self) spacing
                 (emitted segment_length (scale self) spacing) v offsets cs
                 start_x)) ->
        for_child segment_length spacing v offsets (COLS.R v * scale self)
          cs self start_x = inl IndexError).
Proof.
  induction 1 as [|child rest Hc Hrest IH]; intros self start_x R0.
  - simpl. split; intros R.
    + exists self. split; [reflexivity|apply wrote_refl].
    + contradiction.
  - cbn [children_trace for_child].
    set (ln := segment_length v (value child)).
    set (new_offsets :=
           _update_offsets start_x spacing (n_terminations child) offsets ln).
    set (start_x' := start_x + of_int (n_terminations child) * fst spacing).
    set (Ec := emitted segment_length (scale self) spacing child new_offsets).
    set (Er := children_trace segment_length (scale self) spacing
                 (emitted segment_length (scale self) spacing) v offsets
                 rest start_x').
    set (vp := _vertical_segment offsets new_offsets spacing
                 (COLS.R v * scale self,
                  COLS.R (value child) * scale self)).
    unfold edge_polygon. fold vp.
    set (Conn := connector spacing offsets new_offsets).
    assert (Hlen : length ((Vertical, vp) :: Ec ++ Conn ++ Er)
                   = (1 + (length Ec + (length Conn + length Er)))%nat)
      by (simpl; rewrite !length_app; lia).
    rewrite Hlen. clear Hlen.
    destruct (room_dec self 1) as [R1|R1].
    2:{ rewrite store_overflow by exact R1.
        split; [intros R|reflexivity].
        exfalso. apply R1. revert R. apply room_less. lia. }
    destruct (store_ok self vp Vertical R1) as (s1 & -> & W1).
    set (s2 := if Qgtb (snd offsets + snd spacing * 2 + ln)
                    (snd (_max_dims (incr_n s1)))
               then set_max_dims (incr_n s1)
                      (fst (_max_dims (incr_n s1)),
                       snd offsets + snd spacing * 2 + ln)
               else incr_n s1).
    assert (W2 : wrote self s2 [(Vertical, vp)]).
    { unfold s2. destruct (Qgtb _ _); [apply wrote_max_dims|]; exact W1. }
    assert (S2 : scale s2 = scale self) by apply W2.
    assert (R2 : room s2 0)
      by (apply (room_after self s2 [(Vertical, vp)] 0); assumption).
    destruct (Hc s2 new_offsets R2) as [Cok Cov].
    rewrite S2 in Cok, Cov. fold Ec in Cok, Cov.
    destruct (room_dec s2 (length Ec)) as [R2c|R2c].
    2:{ rewrite (Cov R2c).
        split; [intros R|reflexivity].
        exfalso. apply R2c.
        apply (room_after self s2 [(Vertical, vp)]); [|exact W2].
        revert R. apply room_less. simpl. lia. }
    destruct (Cok R2c) as (s3 & -> & W3).
    assert (W3' : wrote self s3 ((Vertical, vp) :: Ec))
      by (apply (wrote_trans self s2 s3 [(Vertical, vp)] Ec); assumption).
    assert (R1c : room self (length ((Vertical, vp) :: Ec)))
      by (apply (room_before self s2 [(Vertical, vp)]); assumption).
    assert (S3 : scale s3 = scale self) by apply W3'.
    assert (R3 : room s3 0).
    { apply (room_after self s3 ((Vertical, vp) :: Ec) 0); [|exact W3'].
      revert R1c. apply room_less. lia. }
    change (if negb (Qeq_bool (fst offsets) (fst new_offsets))
            then _ else inr s3)
      with (write_connector offsets new_offsets s3).
    destruct (connector_spec offsets new_offsets s3 R3) as [Nok Nov].
    fold Conn in Nok, Nov.
    destruct (room_dec s3 (length Conn)) as [R3n|R3n].
    2:{ rewrite (Nov R3n).
        split; [intros R|reflexivity].
        exfalso. apply R3n.
        apply (room_after self s3 ((Vertical, vp) :: Ec)); [|exact W3'].
        revert R. apply room_less. simpl. lia. }
    destruct (Nok R3n) as (s4 & -> & W4).
    assert (W4' : wrote self s4 (((Vertical, vp) :: Ec) ++ Conn))
      by (apply (wrote_trans self s3 s4); assumption).
    assert (R4c : room self (length (((Vertical, vp) :: Ec) ++ Conn))).
    { rewrite length_app.
      apply (room_before self s3 ((Vertical, vp) :: Ec)); assumption. }
    assert (S4 : scale s4 = scale self) by apply W4'.
    assert (R4 : room s4 0).
    { apply (room_after self s4 (((Vertical, vp) :: Ec) ++ Conn) 0);
        [|exact W4'].
      revert R4c. apply room_less. lia. }
    destruct (IH s4 start_x' R4) as [Rok Rov].
    rewrite S4 in Rok, Rov. fold Er in Rok, Rov.
    split; intros R.
    + assert (R4r : room s4 (length Er)).
      { apply (room_after self s4 (((Vertical, vp) :: Ec) ++ Conn));
          [|exact W4'].
        revert R. apply room_less. simpl. rewrite !length_app. simpl. lia. }
      destruct (Rok R4r) as (s5 & -> & W5).
      exists s5. split; [reflexivity|].
      replace ((Vertical, vp) :: Ec ++ Conn ++ Er)
        with ((((Vertical, vp) :: Ec) ++ Conn) ++ Er)
        by (simpl; now rewrite <- app_assoc).
      apply (wrote_trans self s4 s5); assumption.
    + apply Rov. intros R4r. apply R.
      assert (R' := room_before self s4 _ (length Er) R4c W4' R4r).
      revert R'. apply room_less. simpl. rewrite !length_app. simpl. lia.
Qed.

(** Every call of [_generate_dendro] meets [run_spec]. *)
Lemma run_spec_all t : run_spec t.
Proof.
  induction t as [v cs IH] using Tree_ind'.
  intros self offsets R0.
  rewrite _generate_dendro_unfold.
  set (self0 := set_max_dims self _).
  assert (W0 : wrote self self0 []) by apply wrote_max_dims, wrote_refl.
  destruct (for_child_spec v offsets cs IH self0
              (span_start spacing (Node v cs) offsets) R0) as [Hok Hov].
  simpl scale in Hok, Hov.
  cbn [emitted]. split; intros R.
  - destruct (Hok R) as (self' & E & W). exists self'. split; [exact E|].
    apply (wrote_trans self self0 self' [] _); [|exact W0|exact W].
    exact R0.
  - apply Hov. exact R.
Qed.

End Run.

(** ** Where the layout puts the children *)

Section Offsets.

Variable segment_length : Row -> Row -> Q.
Variable scale_ : Q.
Variable spacing : Q * Q.

(** Leaves below a list of siblings. *)
Definition leaves (cs : list (Tree Row)) : nat :=
  list_sum (map (@n_terminations Row) cs).

(** [start_x] after the loop went over the children [pre]. *)
Definition start_after (pre : list (Tree Row)) (start_x : Q) : Q :=
  fold_left (fun s c => s + of_int (n_terminations c) * fst spacing) pre
    start_x.

Lemma of_int_add a b : of_int (a + b) == of_int a + of_int b.
Proof.
  unfold of_int. rewrite Nat2Z.inj_add, inject_Z_plus. reflexivity.
Qed.

Lemma of_int_pos n : (1 <= n)%nat -> 0 < of_int n.
Proof.
  intros H. unfold of_int.
  change 0 with (inject_Z 0). rewrite <- Zlt_Qlt. lia.
Qed.

Lemma of_int_nonneg n : 0 <= of_int n.
Proof.
  unfold of_int. change 0 with (inject_Z 0). rewrite <- Zle_Qle. lia.
Qed.

Lemma of_int_lt a b : (a < b)%nat -> of_int a < of_int b.
Proof. intros H. unfold of_int. rewrite <- Zlt_Qlt. lia. Qed.

Lemma start_after_closed pre start_x :
  start_after pre start_x == start_x + of_int (leaves pre) * fst spacing.
Proof.
  revert start_x. induction pre as [|c pre IH]; intros start_x.
  - unfold start_after, leaves. simpl. change (of_int 0) with 0. ring.
  - change (start_after (c :: pre) start_x)
      with (start_after pre
              (start_x + of_int (n_terminations c) * fst spacing)).
    rewrite IH.
    change (leaves (c :: pre)) with (n_terminations c + leaves pre)%nat.
    rewrite of_int_add. ring.
Qed.

Lemma leaves_app pre post : leaves (pre ++ post) = (leaves pre + leaves post)%nat.
Proof. unfold leaves. now rewrite map_app, list_sum_app. Qed.

Lemma children_offsets_length v offsets cs start_x :
  length (children_offsets segment_length spacing v offsets cs start_x)
  = length cs.
Proof.
  revert start_x. induction cs as [|c cs IH]; intros; simpl; auto.
Qed.

Lemma children_offsets_app v offsets pre post start_x :
  children_offsets segment_length spacing v offsets (pre ++ post) start_x
  = children_offsets segment_length spacing v offsets pre start_x
    ++ children_offsets segment_length spacing v offsets post
         (start_after pre start_x).
Proof.
  revert start_x. induction pre as [|c pre IH]; intros start_x.
  - reflexivity.
  - simpl. now rewrite IH.
Qed.

Lemma children_trace_app rec v offsets pre post start_x :
  children_trace segment_length scale_ spacing rec v offsets (pre ++ post)
    start_x
  = children_trace segment_length scale_ spacing rec v offsets pre start_x
    ++ children_trace segment_length scale_ spacing rec v offsets post
         (start_after pre start_x).
Proof.
  revert start_x. induction pre as [|c pre IH]; intros start_x.
  - reflexivity.
  - cbn [app children_trace]. rewrite IH.
    change (start_after (c :: pre) start_x)
      with (start_after pre
              (start_x + of_int (n_terminations c) * fst spacing)).
    now rewrite <- !app_assoc.
Qed.

(** The offsets of the child that follows the siblings [pre]. *)
Definition offsets_after (t : Tree Row) (offsets : Q * Q)
  (pre : list (Tree Row)) (child : Tree Row) : Q * Q :=
  _update_offsets (start_after pre (span_start spacing t offsets)) spacing
    (n_terminations child) offsets
    (segment_length (value t) (value child)).

Lemma child_offsets_nth v pre child post offsets :
  nth_error (child_offsets segment_length spacing
               (Node v (pre ++ child :: post)) offsets) (length pre)
  = Some (offsets_after (Node v (pre ++ child :: post)) offsets pre child).
Proof.
  unfold child_offsets. cbn [value children].
  rewrite children_offsets_app.
  rewrite nth_error_app2
    by (rewrite children_offsets_length; lia).
  rewrite children_offsets_length, Nat.sub_diag. reflexivity.
Qed.

(** The trace of a node, cut at one of its children. *)
Lemma emitted_child v pre child post offsets :
  let t := Node v (pre ++ child :: post) in
  let new_offsets := offsets_after t offsets pre child in
  emitted segment_length scale_ spacing t offsets
  = children_trace segment_length scale_ spacing
      (emitted segment_length scale_ spacing) v offsets pre
      (span_start spacing t offsets)
    ++ (Vertical,
        edge_polygon scale_ spacing v offsets child new_offsets)
    :: emitted segment_length scale_ spacing child new_offsets
    ++ connector spacing offsets new_offsets
    ++ children_trace segment_length scale_ spacing
         (emitted segment_length scale_ spacing) v offsets post
         (start_after (pre ++ [child]) (span_start spacing t offsets)).
Proof.
  intros t new_offsets. unfold t at 1. cbn [emitted].
  rewrite children_trace_app. f_equal.
  cbn [children_trace]. fold t. fold new_offsets.
  do 3 f_equal.
  unfold start_after. rewrite fold_left_app. reflexivity.
Qed.

(** The horizontal offset of a child, in closed form: the parent's, moved
    by half the spacing for every leaf of the siblings before it, and
    back by as much for every leaf of the siblings after it. *)
Lemma child_x_closed v pre child post offsets :
  fst (offsets_after (Node v (pre ++ child :: post)) offsets pre child)
  == fst offsets
     + fst spacing * (of_int (leaves pre) - of_int (leaves post)) / 2.
Proof.
  unfold offsets_after, _update_offsets, span_start. cbn [fst value].
  rewrite start_after_closed.
  rewrite n_terminations_node by (destruct pre; discriminate).
  fold (leaves (pre ++ child :: post)).
  rewrite leaves_app.
  change (leaves (child :: post)) with (n_terminations child + leaves post)%nat.
  rewrite !of_int_add. field.
Qed.

End Offsets.

(** ** Connectors *)

Section Connectors.

Variable segment_length : Row -> Row -> Q.
Variable scale_ : Q.
Variable spacing : Q * Q.

Lemma connector_same offsets new_offsets :
  fst offsets == fst new_offsets ->
  connector spacing offsets new_offsets = [].
Proof.
  intros H. unfold connector.
  apply Qeq_bool_iff in H. now rewrite H.
Qed.

Lemma connector_differ offsets new_offsets :
  ~ fst offsets == fst new_offsets ->
  connector spacing offsets new_offsets
  = [(Horizontal, _horizontal_segment offsets new_offsets spacing 0)].
Proof.
  intros H. unfold connector.
  apply Qeq_bool_false in H. now rewrite H.
Qed.

(** An only child sits right below its parent. *)
Lemma only_child_x v child offsets :
  fst (offsets_after segment_length spacing (Node v [child]) offsets []
         child)
  == fst offsets.
Proof.
  rewrite (child_x_closed segment_length spacing v [] child [] offsets).
  unfold leaves. simpl. change (of_int 0) with 0. field.
Qed.

(** A child whose siblings all come after it, or all before it, is off
    its parent's axis. *)
Lemma first_child_x v child post offsets :
  ~ fst spacing == 0 -> post <> [] ->
  ~ fst offsets
    == fst (offsets_after segment_length spacing
              (Node v (child :: post)) offsets [] child).
Proof.
  intros Hs Hp E.
  rewrite (child_x_closed segment_length spacing v [] child post offsets)
    in E.
  assert (L : 0 < of_int (leaves post)).
  { apply of_int_pos. destruct post as [|c post]; [congruence|].
    unfold leaves. simpl. pose proof (n_terminations_pos _ c). lia. }
  change (of_int (leaves [])) with 0 in E.
  assert (Z : fst spacing * of_int (leaves post) == 0).
  { assert (E' : fst spacing * (0 - of_int (leaves post)) / 2
                 == - (fst spacing * of_int (leaves post)) / 2) by field.
    rewrite E' in E.
    set (m := fst spacing * of_int (leaves post)) in *.
    clear E' L. clearbody m. halves. lra. }
  apply Qmult_integral in Z. destruct Z as [Z|Z]; [contradiction|].
  rewrite Z in L. now apply Qlt_irrefl in L.
Qed.

Lemma last_child_x v pre child offsets :
  ~ fst spacing == 0 -> pre <> [] ->
  ~ fst offsets
    == fst (offsets_after segment_length spacing
              (Node v (pre ++ [child])) offsets pre child).
Proof.
  intros Hs Hp E.
  rewrite (child_x_closed segment_length spacing v pre child [] offsets)
    in E.
  assert (L : 0 < of_int (leaves pre)).
  { apply of_int_pos. destruct pre as [|c pre]; [congruence|].
    unfold leaves. simpl. pose proof (n_terminations_pos _ c). lia. }
  change (of_int (leaves [])) with 0 in E.
  assert (Z : fst spacing * of_int (leaves pre) == 0).
  { assert (E' : fst spacing * (of_int (leaves pre) - 0) / 2
                 == (fst spacing * of_int (leaves pre)) / 2) by field.
    rewrite E' in E.
    set (m := fst spacing * of_int (leaves pre)) in *.
    clear E' L. clearbody m. halves. lra. }
  apply Qmult_integral in Z. destruct Z as [Z|Z]; [contradiction|].
  rewrite Z in L. now apply Qlt_irrefl in L.
Qed.


End Connectors.

(** ** Counting the writes on binary trees *)

Section BinaryCount.

Variable segment_length : Row -> Row -> Q.
Variable scale_ : Q.
Variable spacing : Q * Q.
Hypothesis spacing_x : ~ fst spacing == 0.

Lemma emitted_length_binary t :
  is_binary t = true ->
  forall offsets,
    length (emitted segment_length scale_ spacing t offsets)
    = _total_rectangles t.
Proof.
  induction t as [v cs IH] using Tree_ind'.
  intros Hb offsets. cbn [is_binary] in Hb.
  apply andb_true_iff in Hb. destruct Hb as [Hl Hb].
  apply Nat.leb_le in Hl.
  destruct cs as [|c1 [|c2 [|c3 cs]]]; [reflexivity| | |simpl in Hl; lia].
  - inversion IH as [|? ? IH1 _]; subst.
    simpl in Hb. rewrite andb_true_r in Hb.
    pose proof (emitted_child segment_length scale_ spacing v [] c1 []
                  offsets) as E.
    cbv zeta in E. cbn [app] in E. rewrite E. clear E.
    rewrite connector_same by (symmetry; apply only_child_x).
    cbn [children_trace app length]. rewrite app_nil_r.
    rewrite (IH1 Hb). unfold _total_rectangles. simpl. lia.
  - inversion IH as [|? ? IH1 IH']; subst.
    inversion IH' as [|? ? IH2 _]; subst.
    simpl in Hb. rewrite andb_true_r in Hb.
    apply andb_true_iff in Hb. destruct Hb as [Hb1 Hb2].
    pose proof (emitted_child segment_length scale_ spacing v [c1] c2 []
                  offsets) as E.
    cbv zeta in E. cbn [app] in E. rewrite E. clear E.
    rewrite (connector_differ spacing)
      by (apply (last_child_x segment_length spacing v [c1] c2 offsets);
          [exact spacing_x|discriminate]).
    cbn [children_trace].
    change (_update_offsets (span_start spacing (Node v [c1; c2]) offsets)
              spacing (n_terminations c1) offsets
              (segment_length v (value c1)))
      with (offsets_after segment_length spacing (Node v (c1 :: [c2]))
              offsets [] c1).
    rewrite (connector_differ spacing)
      by (apply (first_child_x segment_length spacing v c1 [c2] offsets);
          [exact spacing_x|discriminate]).
    cbn [length app]. rewrite !length_app. cbn [length].
    rewrite !length_app. cbn [length].
    rewrite (IH1 Hb1), (IH2 Hb2).
    unfold _total_rectangles. simpl. lia.
Qed.

End BinaryCount.

(** ** The dendrogram *)

Section Dendrograms.

Variable segment_length : Row -> Row -> Q.

(** A call that returns wrote its whole trace into the buffer. *)
Lemma run_success spacing self t offsets self' :
  children t <> [] ->
  _generate_dendro segment_length self t spacing offsets = inr self' ->
  room self (length (emitted segment_length (scale self) spacing t offsets))
  /\ wrote self self' (emitted segment_length (scale self) spacing t offsets).
Proof.
  intros Hc Hrun.
  destruct (room_dec self 0) as [R0|R0].
  - destruct (run_spec_all segment_length spacing t self offsets R0)
      as [Hok Hov].
    destruct (room_dec self
                (length (emitted segment_length (scale self) spacing t
                           offsets))) as [R|R].
    + destruct (Hok R) as (s & E & W).
      rewrite E in Hrun. injection Hrun as <-. now split.
    + rewrite (Hov R) in Hrun. discriminate.
  - exfalso. destruct t as [v [|c cs]]; [now apply Hc|].
    rewrite _generate_dendro_unfold in Hrun. cbn [for_child] in Hrun.
    rewrite store_overflow in Hrun; [discriminate|].
    intros R1. apply R0. revert R1. unfold room. simpl. lia.
Qed.

(** The layout of a single tree: [generate] fills the first entries of
    the buffer with the trace when the estimate covers it, and raises
    IndexError when the trace is longer than the estimate. *)
Lemma generate_tree t :
  let E := emitted segment_length 1 (40, 0) t (0, 0) in
  ((length E <= _total_rectangles t)%nat ->
   exists d',
     generate segment_length (Dendrogram_init (PyTree t)) = inr d'
     /\ _n d' = length E
     /\ length (_rectangles d') = _total_rectangles t
     /\ firstn (_n d') (_rectangles d') = map snd E)
  /\ ((_total_rectangles t < length E)%nat ->
      generate segment_length (Dendrogram_init (PyTree t)) = inl IndexError).
Proof.
  intros E. unfold E.
  set (d := Dendrogram_init (PyTree t)).
  assert (L : length (_rectangles d) = _total_rectangles t)
    by apply repeat_length.
  assert (R0 : room d 0) by (unfold room; simpl; lia).
  destruct (run_spec_all segment_length (40, 0) t d (0, 0) R0) as [Hok Hov].
  change (scale d) with 1 in Hok, Hov.
  unfold generate. cbn [_obj d Dendrogram_init].
  split; intros H.
  - destruct Hok as (s & -> & W); [unfold room; simpl _n; lia|].
    eexists. split; [reflexivity|]. cbn [_n _rectangles set_trees].
    destruct W as (Hn & Hr & _). simpl _n in Hn, Hr.
    rewrite Hn, Hr. repeat split.
    + rewrite splice_length; [exact L|]. rewrite length_map, L. exact H.
    + unfold splice. cbn [firstn app Nat.add].
      rewrite <- (length_map snd) at 1.
      apply firstn_app_exact. reflexivity.
  - rewrite Hov; [reflexivity|]. unfold room. simpl _n. lia.
Qed.

End Dendrograms.

(** Example trees.  Their rows lie on the y axis, where the length of a
    segment is the difference of the y coordinates. *)
Definition axis_length (a b : Row) : Q := Qabs (COLS.Y b - COLS.Y a).

Definition leaf_at (y : Q) : Tree Row := Node (mkRow 0 y 0 1 3%Z) [].

(** A root with four leaves below it. *)
Definition four_way : Tree Row :=
  Node (mkRow 0 0 0 2 3%Z) [leaf_at 10; leaf_at 20; leaf_at 30; leaf_at 40].

(** C1 (failing input).  On a root with four leaf children the estimate
    is 4 segments + 2 x 1 bifurcation = 6 polygons (4 with the narrow
    count of bifurcations), the fill pass has 4 vertical and 4 horizontal
    polygons to write, and [generate] raises IndexError at the seventh
    write: the write index never reaches the end of a filled buffer. *)
Theorem four_way_overflows (segment_length : Row -> Row -> Q) :
  n_segments four_way = 4%nat
  /\ n_bifurcations four_way = 1%nat
  /\ n_bifurcations_strict four_way = 0%nat
  /\ _n_rectangles (PyTree four_way) = 6%nat
  /\ length (_rectangles (Dendrogram_init (PyTree four_way))) = 6%nat
  /\ length (emitted segment_length 1 (40, 0) four_way (0, 0)) = 8%nat
  /\ generate segment_length (Dendrogram_init (PyTree four_way))
     = inl IndexError.
Proof.
  assert (L : length (emitted segment_length 1 (40, 0) four_way (0, 0))
              = 8%nat) by reflexivity.
  repeat split; try reflexivity.
  apply generate_tree. rewrite L. unfold _total_rectangles. simpl. lia.
Qed.

(** On a tree whose nodes have at most two children the fill pass ends
    with the write index at the end of the buffer, which has
    [n_segments + 2 * n_bifurcations] entries. *)
Theorem binary_fill_exact (segment_length : Row -> Row -> Q) t :
  is_binary t = true ->
  exists d',
    generate segment_length (Dendrogram_init (PyTree t)) = inr d'
    /\ _n d' = length (_rectangles d')
    /\ _n d' = (n_segments t + 2 * n_bifurcations t)%nat
    /\ _rectangles d'
       = map snd (emitted segment_length 1 (40, 0) t (0, 0)).
Proof.
  intros Hb.
  assert (L : length (emitted segment_length 1 (40, 0) t (0, 0))
              = _total_rectangles t).
  { apply emitted_length_binary; [|exact Hb]. simpl. discriminate. }
  destruct (generate_tree segment_length t) as [Hok _].
  destruct Hok as (d' & E & Hn & Hl & Hf); [lia|].
  exists d'. split; [exact E|].
  repeat split.
  - lia.
  - rewrite Hn, L. unfold _total_rectangles. lia.
  - rewrite <- Hf. symmetry. apply firstn_all2. lia.
Qed.

(** A root with two children, one of them a bifurcation. *)
Definition two_level : Tree Row :=
  Node (mkRow 0 0 0 2 3%Z)
    [Node (mkRow 0 10 0 1 3%Z) [leaf_at 15; leaf_at 30]; leaf_at 20].

Lemma binary_fill_exact_witness :
  is_binary two_level = true
  /\ exists d',
       generate axis_length (Dendrogram_init (PyTree two_level)) = inr d'
       /\ _n d' = length (_rectangles d')
       /\ _n d' = (n_segments two_level + 2 * n_bifurcations two_level)%nat
       /\ _rectangles d'
          = map snd (emitted axis_length 1 (40, 0) two_level (0, 0)).
Proof.
  split; [reflexivity|].
  apply (binary_fill_exact axis_length two_level). reflexivity.
Defined.

Section Edges.

Variable segment_length : Row -> Row -> Q.
Variable spacing : Q * Q.

(** C7.  For the edge from a node to any of its children, a call of
    [_generate_dendro] that returns has written, at the index the loop
    had reached for that child, a polygon of exactly four vertices: the
    first and the last at height [offsets y + spacing y], at the parent's
    scaled radius left and right of the child's horizontal offset; the
    second and the third at the child's vertical offset, at the child's
    scaled radius left and right of it.  The child's vertical offset is
    the parent's plus twice the vertical spacing plus the length of the
    segment. *)
Theorem vertical_polygon_taper self v pre child post offsets self' :
  let t := Node v (pre ++ child :: post) in
  _generate_dendro segment_length self t spacing offsets = inr self' ->
  let new_offsets := offsets_after segment_length spacing t offsets pre child in
  let before :=
    children_trace segment_length (scale self) spacing
      (emitted segment_length (scale self) spacing) v offsets pre
      (span_start spacing t offsets) in
  let r_parent := COLS.R v * scale self in
  let r_child := COLS.R (value child) * scale self in
  exists p,
    nth_error (_rectangles self') (_n self + length before) = Some p
    /\ length p = 4%nat
    /\ p = [ (fst new_offsets - r_parent, snd offsets + snd spacing);
             (fst new_offsets - r_child, snd new_offsets);
             (fst new_offsets + r_child, snd new_offsets);
             (fst new_offsets + r_parent, snd offsets + snd spacing) ]
    /\ snd new_offsets
       == snd offsets + 2 * snd spacing + segment_length v (value child).
Proof.
  intros t Hrun new_offsets before r_parent r_child.
  destruct (run_success segment_length spacing self t offsets self')
    as [R W]; [destruct pre; discriminate|exact Hrun|].
  destruct W as (_ & Hr & _).
  unfold t in R, Hr.
  rewrite (emitted_child segment_length (scale self) spacing v pre child post
             offsets) in R, Hr.
  fold t in R, Hr. fold new_offsets in R, Hr. fold before in R, Hr.
  eexists. split; [|split; [|split; [reflexivity|]]].
  - rewrite Hr, nth_error_splice.
    + rewrite map_app, nth_error_app2 by (rewrite length_map; lia).
      rewrite length_map, Nat.sub_diag. reflexivity.
    + rewrite length_map. exact R.
    + rewrite length_map, length_app. simpl. lia.
  - reflexivity.
  - unfold new_offsets, offsets_after, _update_offsets. cbn [snd value t].
    ring.
Qed.


End Edges.

(** The object a computation left behind, [d] if it raised. *)
Definition result_or (d : Dendrogram) (r : Exc Dendrogram) : Dendrogram :=
  match r with
  | inr s => s
  | inl _ => d
  end.

(** The layout of [two_level], as [generate] starts it. *)
Definition two_level_start : Dendrogram := Dendrogram_init (PyTree two_level).

Definition two_level_done : Dendrogram :=
  result_or two_level_start
    (_generate_dendro axis_length two_level_start two_level (40, 0) (0, 0)).

Definition two_level_left : Tree Row :=
  Node (mkRow 0 10 0 1 3%Z) [leaf_at 15; leaf_at 30].

Lemma two_level_runs :
  _generate_dendro axis_length two_level_start two_level (40, 0) (0, 0)
  = inr two_level_done.
Proof. vm_compute. reflexivity. Qed.
Lemma vertical_polygon_taper_witness :
  _generate_dendro axis_length two_level_start two_level (40, 0) (0, 0)
  = inr two_level_done
  /\ exists p,
       nth_error (_rectangles two_level_done) 6 = Some p
       /\ length p = 4%nat
       /\ p = [ (fst (offsets_after axis_length (40, 0) two_level (0, 0)
                        [two_level_left] (leaf_at 20))
                 - 2 * 1, 0 + 0);
                (fst (offsets_after axis_length (40, 0) two_level (0, 0)
                        [two_level_left] (leaf_at 20))
                 - 1 * 1,
                 snd (offsets_after axis_length (40, 0) two_level (0, 0)
                        [two_level_left] (leaf_at 20)));
                (fst (offsets_after axis_length (40, 0) two_level (0, 0)
                        [two_level_left] (leaf_at 20))
                 + 1 * 1,
                 snd (offsets_after axis_length (40, 0) two_level (0, 0)
                        [two_level_left] (leaf_at 20)));
                (fst (offsets_after axis_length (40, 0) two_level (0, 0)
                        [two_level_left] (leaf_at 20))
                 + 2 * 1, 0 + 0) ]
       /\ snd (offsets_after axis_length (40, 0) two_level (0, 0)
                 [two_level_left] (leaf_at 20))
          == 0 + 2 * 0 + 20.
Proof.
  split; [exact two_level_runs|].
  exact (vertical_polygon_taper axis_length (40, 0) two_level_start
           (mkRow 0 0 0 2 3%Z) [two_level_left] (leaf_at 20) [] (0, 0)
           two_level_done two_level_runs).
Defined.


(** ** Horizontal placement *)

(** The claim that a child's horizontal offset is determined by its
    parent's horizontal offset and its own leaf count: two children at the
    same position below parents with the same offset and with as many
    leaves get the same offset. *)
Definition child_x_from_own_leaves : Prop :=
  forall (segment_length : Row -> Row -> Q) (spacing : Q * Q)
         v1 pre1 c1 post1 o1 v2 pre2 c2 post2 o2,
    length pre1 = length pre2 ->
    fst o1 == fst o2 ->
    n_terminations c1 = n_terminations c2 ->
    fst (offsets_after segment_length spacing
           (Node v1 (pre1 ++ c1 :: post1)) o1 pre1 c1)
    == fst (offsets_after segment_length spacing
              (Node v2 (pre2 ++ c2 :: post2)) o2 pre2 c2).

(** Two roots at offset 0 whose second child is the same leaf; the first
    child is a leaf in one and a bifurcation in the other. *)
Definition narrow_sibling : Tree Row :=
  Node (mkRow 0 0 0 2 3%Z) [leaf_at 10; leaf_at 20].

Definition wide_sibling : Tree Row :=
  Node (mkRow 0 0 0 2 3%Z) [two_level_left; leaf_at 20].

(** C9 (counterexample).  The second child, a leaf below a parent at
    offset 0 in both trees, is placed at 20 when its sibling is a leaf
    and at 40 when its sibling has two leaves. *)
Lemma sibling_leaves_move_child :
  fst (offsets_after axis_length (40, 0) narrow_sibling (0, 0)
         [leaf_at 10] (leaf_at 20)) == 20
  /\ fst (offsets_after axis_length (40, 0) wide_sibling (0, 0)
            [two_level_left] (leaf_at 20)) == 40
  /\ ~ child_x_from_own_leaves.
Proof.
  split; [reflexivity|]. split; [reflexivity|].
  intros H.
  specialize (H axis_length (40, 0)
                (mkRow 0 0 0 2 3%Z) [leaf_at 10] (leaf_at 20) [] (0, 0)
                (mkRow 0 0 0 2 3%Z) [two_level_left] (leaf_at 20) [] (0, 0)
                eq_refl (Qeq_refl 0) eq_refl).
  vm_compute in H. discriminate.
Qed.

Lemma app_eq_length_l A (l1 l2 k1 k2 : list A) :
  length l1 = length k1 -> l1 ++ l2 = k1 ++ k2 -> l1 = k1 /\ l2 = k2.
Proof.
  revert k1. induction l1 as [|a l1 IH]; intros [|b k1] L E;
    try discriminate.
  - now split.
  - injection L as L. injection E as -> E.
    destruct (IH k1 L E) as [-> ->]. now split.
Qed.

(** C9 (amended).  A child's horizontal offset is determined by its
    parent's horizontal offset, the horizontal spacing and the leaf
    counts of the parent's children, its own and its siblings': two
    children at the same position below parents with the same offset,
    whose children have the same leaf counts in order, get the same
    offset, whatever else differs inside the siblings. *)
Theorem child_x_from_sibling_leaves (segment_length : Row -> Row -> Q)
  (spacing : Q * Q) v1 pre1 c1 post1 o1 v2 pre2 c2 post2 o2 :
  length pre1 = length pre2 ->
  fst o1 == fst o2 ->
  map (@n_terminations Row) (pre1 ++ c1 :: post1)
  = map (@n_terminations Row) (pre2 ++ c2 :: post2) ->
  fst (offsets_after segment_length spacing
         (Node v1 (pre1 ++ c1 :: post1)) o1 pre1 c1)
  == fst (offsets_after segment_length spacing
            (Node v2 (pre2 ++ c2 :: post2)) o2 pre2 c2).
Proof.
  intros L Ho Hm.
  rewrite !map_app in Hm. cbn [map] in Hm.
  apply app_eq_length_l in Hm; [|now rewrite !length_map].
  destruct Hm as [Hpre Hpost]. injection Hpost as _ Hpost.
  rewrite !child_x_closed. unfold leaves.
  now rewrite Hpre, Hpost, Ho.
Qed.

(** The same leaf below a bifurcation whose two leaves hang at other
    heights. *)
Definition two_level_left' : Tree Row :=
  Node (mkRow 0 12 0 1 3%Z) [leaf_at 40; leaf_at 50].

Lemma child_x_from_sibling_leaves_witness :
  fst (offsets_after axis_length (40, 0)
         (Node (mkRow 0 0 0 2 3%Z) ([two_level_left] ++ leaf_at 20 :: []))
         (0, 0) [two_level_left] (leaf_at 20))
  == fst (offsets_after axis_length (40, 0)
            (Node (mkRow 0 0 0 2 3%Z) ([two_level_left'] ++ leaf_at 20 :: []))
            (0, 0) [two_level_left'] (leaf_at 20)).
Proof.
  apply (child_x_from_sibling_leaves axis_length (40, 0)
           (mkRow 0 0 0 2 3%Z) [two_level_left] (leaf_at 20) [] (0, 0)
           (mkRow 0 0 0 2 3%Z) [two_level_left'] (leaf_at 20) [] (0, 0));
    reflexivity.
Defined.

(** ** Objects that are neither trees nor neurons *)

(** C10.  For an object that is neither a Tree nor a Neuron the count of
    polygons is 0, and the Dendrogram built on it has an empty buffer and
    the write index 0. *)
Theorem other_object_empty_buffer obj :
  isinstance_Tree obj = false ->
  isinstance_Neuron obj = false ->
  _n_rectangles obj = 0%nat
  /\ _rectangles (Dendrogram_init obj) = []
  /\ length (data (Dendrogram_init obj)) = 0%nat
  /\ _n (Dendrogram_init obj) = 0%nat.
Proof.
  intros HT HN. destruct obj as [t|ns|o]; try discriminate.
  repeat split.
Qed.

Lemma other_object_empty_buffer_witness :
  isinstance_Tree (PyOther None) = false
  /\ isinstance_Neuron (PyOther None) = false
  /\ _n_rectangles (PyOther None) = 0%nat
  /\ _rectangles (Dendrogram_init (PyOther None)) = []
  /\ length (data (Dendrogram_init (PyOther None))) = 0%nat
  /\ _n (Dendrogram_init (PyOther None)) = 0%nat.
Proof.
  split; [reflexivity|]. split; [reflexivity|].
  apply (other_object_empty_buffer (PyOther None)); reflexivity.
Defined.

(** ** Monotonicity *)

(** Some sample of the section has a radius above its predecessor's by
    more than [tol]. *)
Definition rises_within (sec : list Row) (tol : Q) : Prop :=
  exists i a b,
    nth_error sec i = Some a
    /\ nth_error sec (S i) = Some b
    /\ COLS.R a + tol < COLS.R b.

(** The node has a parent, and its first sample has a radius above that
    of the parent's last sample by more than [tol]. *)
Definition rises_from_parent (n : SNode) (tol : Q) : Prop :=
  exists p first final,
    parent n = Some p
    /\ nth_error (value (node n)) 0 = Some first
    /\ nth_error (value p) (length (value p) - 1) = Some final
    /\ COLS.R final + tol < COLS.R first.

Definition violates (n : SNode) (tol : Q) : Prop :=
  rises_within (value (node n)) tol \/ rises_from_parent n tol.

(** Every node that is looked at carries samples, and so does its
    parent. *)
Definition sampled (n : SNode) : Prop :=
  value (node n) <> []
  /\ forall p, parent n = Some p -> value p <> [].

Lemma section_rises_spec sec tol :
  section_rises sec tol = true <-> rises_within sec tol.
Proof.
  unfold section_rises, rises_within, row_at. rewrite existsb_exists.
  split.
  - intros (i & Hi & H). apply in_seq in Hi. apply Qgtb_spec in H.
    exists i, (nth i sec zero_row), (nth (i + 1) sec zero_row).
    repeat split.
    + apply nth_error_nth'. lia.
    + rewrite <- Nat.add_1_r. apply nth_error_nth'. lia.
    + exact H.
  - intros (i & a & b & Ha & Hb & H).
    assert (L : (S i < length sec)%nat)
      by (apply nth_error_Some; congruence).
    exists i. split; [apply in_seq; lia|].
    apply Qgtb_spec.
    rewrite Nat.add_1_r.
    rewrite (nth_error_nth _ _ _ Ha), (nth_error_nth _ _ _ Hb). exact H.
Qed.

Lemma last_default A (l : list A) c a b : last (c :: l) a = last (c :: l) b.
Proof.
  revert c. induction l as [|d l IH]; intros c; [reflexivity|].
  change (last (d :: l) a = last (d :: l) b). apply IH.
Qed.

Lemma nth_error_last A (l : list A) a :
  nth_error (a :: l) (length l) = Some (last l a).
Proof.
  revert a. induction l as [|b l IH]; intros a; [reflexivity|].
  cbn [length nth_error]. rewrite IH. f_equal.
  destruct l as [|c l]; [reflexivity|].
  change (last (b :: c :: l) a) with (last (c :: l) a).
  apply last_default.
Qed.

Lemma getitem_last_spec A (l : list A) :
  l <> [] ->
  exists x,
    getitem_last l = inr x /\ nth_error l (length l - 1) = Some x.
Proof.
  destruct l as [|a l]; [congruence|]. intros _.
  exists (last l a). split; [reflexivity|].
  cbn [length]. rewrite Nat.sub_1_r. cbn [Nat.pred].
  apply nth_error_last.
Qed.

Lemma is_monotonic_nodes_spec nodes tol :
  (forall n, In n nodes -> sampled n) ->
  exists b,
    is_monotonic_nodes nodes tol = inr b
    /\ (b = false <-> exists n, In n nodes /\ violates n tol).
Proof.
  induction nodes as [|n rest IH]; intros Hs.
  - exists true. split; [reflexivity|].
    split; [discriminate|]. intros (n & [] & _).
  - destruct IH as (b & Hb & Hiff);
      [intros m Hm; apply Hs; now right|].
    destruct (Hs n (or_introl eq_refl)) as [Hsec Hpar].
    cbn [is_monotonic_nodes].
    destruct (section_rises (value (node n)) tol) eqn:Erise.
    { exists false. split; [reflexivity|]. split; [|reflexivity].
      intros _. exists n. split; [now left|].
      left. now apply section_rises_spec. }
    assert (Nrise : ~ rises_within (value (node n)) tol).
    { intros H. apply section_rises_spec in H. congruence. }
    destruct (parent n) as [p|] eqn:Ep.
    + destruct (value (node n)) as [|first sec] eqn:Esec; [congruence|].
      cbn [getitem nth_error].
      destruct (getitem_last_spec _ (value p) (Hpar p eq_refl))
        as (final & -> & Hfinal).
      destruct (Qgtb (COLS.R first) (COLS.R final + tol)) eqn:Ecmp.
      * exists false. split; [reflexivity|]. split; [|reflexivity].
        intros _. exists n. split; [now left|].
        right. exists p, first, final. rewrite Esec.
        repeat split; try assumption. now apply Qgtb_spec.
      * exists b. split; [exact Hb|].
        rewrite Hiff. split.
        -- intros (m & Hm & Hv). exists m. split; [now right|exact Hv].
        -- intros (m & [<-|Hm] & Hv); [|now exists m].
           exfalso. destruct Hv as [Hv|Hv].
           ++ apply Nrise. now rewrite <- Esec.
           ++ destruct Hv as (p' & f' & l' & Ep' & Hf' & Hl' & Hlt).
              rewrite Ep in Ep'. injection Ep' as <-.
              rewrite Esec in Hf'. injection Hf' as <-.
              rewrite Hfinal in Hl'. injection Hl' as <-.
              apply Qgtb_false in Ecmp.
              exact (Qlt_not_le _ _ Hlt Ecmp).
    + exists b. split; [exact Hb|].
      rewrite Hiff. split.
      * intros (m & Hm & Hv). exists m. split; [now right|exact Hv].
      * intros (m & [<-|Hm] & Hv); [|now exists m].
        exfalso. destruct Hv as [Hv|Hv]; [now apply Nrise|].
        destruct Hv as (p' & f' & l' & Ep' & _). congruence.
Qed.

(** C4.  On a neurite whose nodes carry samples, [is_monotonic] returns
    False exactly when some node has a sample whose radius exceeds the
    previous sample's by more than [tol], or has a parent and a first
    sample whose radius exceeds the parent's last by more than [tol]; it
    returns True when no node does, in particular on a single node
    without a parent whose radii never rise by more than [tol]. *)
Theorem is_monotonic_iff neurite tol :
  (forall n, In n (iter_nodes neurite) -> sampled n) ->
  (is_monotonic neurite tol = inr false
   <-> exists n, In n (iter_nodes neurite) /\ violates n tol)
  /\ (is_monotonic neurite tol = inr true
      <-> ~ exists n, In n (iter_nodes neurite) /\ violates n tol)
  /\ (children (node neurite) = [] -> parent neurite = None ->
      ~ rises_within (value (node neurite)) tol ->
      is_monotonic neurite tol = inr true).
Proof.
  intros Hs. unfold is_monotonic.
  destruct (is_monotonic_nodes_spec (iter_nodes neurite) tol Hs)
    as (b & -> & Hiff).
  assert (H1 : inr b = @inr exn bool false
               <-> exists n, In n (iter_nodes neurite) /\ violates n tol).
  { rewrite <- Hiff. split; [now intros [= ->]|now intros ->]. }
  assert (H2 : inr b = @inr exn bool true
               <-> ~ exists n, In n (iter_nodes neurite) /\ violates n tol).
  { rewrite <- Hiff. destruct b; split; congruence. }
  split; [exact H1|]. split; [exact H2|].
  intros Hc Hp Hr. apply H2. intros (n & Hn & Hv).
  destruct neurite as [up [sec cs]]. cbn [node parent children value] in *.
  subst cs up. unfold iter_nodes in Hn. cbn in Hn.
  destruct Hn as [<-|[]]. destruct Hv as [Hv|Hv]; [now apply Hr|].
  destruct Hv as (p & _ & _ & Ep & _). discriminate.
Qed.

(** A section along the y axis with the given radii. *)
Definition section_of (radii : list Q) : list Row :=
  map (fun yr : nat * Q => mkRow 0 (of_int (fst yr)) 0 (snd yr) 3%Z)
    (enumerate radii).

Definition tapering : SNode :=
  mkSNode None (Node (section_of [5; 4; 3; 2; 1]) []).

Definition bulging : SNode :=
  mkSNode None (Node (section_of [5; 4; 6; 2; 1]) []).

(** A child that starts thicker than its parent ends. *)
Definition thick_child : SNode :=
  mkSNode None (Node (section_of [5; 4]) [Node (section_of [9 # 2; 3]) []]).

Example is_monotonic_tapering : is_monotonic tapering 0 = inr true.
Proof. reflexivity. Qed.

Example is_monotonic_bulging : is_monotonic bulging 0 = inr false.
Proof. reflexivity. Qed.

Example is_monotonic_thick_child :
  is_monotonic thick_child 0 = inr false
  /\ is_monotonic thick_child (1 # 2) = inr true.
Proof. split; reflexivity. Qed.

(** A child without samples below a parent: the comparison at the section
    boundary indexes an empty array. *)
Example is_monotonic_empty_child :
  is_monotonic (mkSNode None (Node (section_of [5; 4]) [Node [] []])) 0
  = inl IndexError.
Proof. reflexivity. Qed.

Lemma is_monotonic_iff_witness :
  (is_monotonic bulging 0 = inr false
   <-> exists n, In n (iter_nodes bulging) /\ violates n 0)
  /\ (is_monotonic bulging 0 = inr true
      <-> ~ exists n, In n (iter_nodes bulging) /\ violates n 0)
  /\ (children (node bulging) = [] -> parent bulging = None ->
      ~ rises_within (value (node bulging)) 0 ->
      is_monotonic bulging 0 = inr true).
Proof.
  apply (is_monotonic_iff bulging 0).
  intros n [<-|[]]. split; [discriminate|intros p; discriminate].
Defined.

(** ** Flatness *)

Lemma np_insert_perm x l : Permutation (x :: l) (np_insert x l).
Proof.
  induction l as [|y l IH]; simpl; [reflexivity|].
  destruct (Qle_bool x y); [reflexivity|].
  rewrite perm_swap. now constructor.
Qed.

Lemma np_sort_perm l : Permutation l (np_sort l).
Proof.
  induction l as [|x l IH]; simpl; [constructor|].
  rewrite <- np_insert_perm. now constructor.
Qed.

Lemma np_insert_sorted x l : Sorted Qle l -> Sorted Qle (np_insert x l).
Proof.
  induction 1 as [|y l Hs IH Hd]; simpl.
  - repeat constructor.
  - destruct (Qle_bool x y) eqn:E.
    + apply Qle_bool_iff in E. repeat constructor; assumption.
    + assert (Hyx : y <= x).
      { apply Qlt_le_weak, Qnot_le_lt. intros L.
        apply Qle_bool_iff in L. congruence. }
      constructor; [exact IH|].
      destruct Hd as [|z l Hyz]; simpl.
      * now constructor.
      * destruct (Qle_bool x z); now constructor.
Qed.

Lemma np_sort_sorted l : Sorted Qle (np_sort l).
Proof.
  induction l as [|x l IH]; simpl; [constructor|].
  now apply np_insert_sorted.
Qed.

Section FlatProperties.

Variable principal_direction_extent : list vec -> list Q.

(** C5.  With method "ratio", and at least two extents, [is_flat]
    compares the quotient of the first two entries of the extents sorted
    in ascending order, the smallest and the second smallest, with [tol]:
    its value is that of [s0 / s1 < tol] as numpy computes it, and when
    the second smallest extent is not zero it is True exactly when the
    quotient is below [tol]. *)
Theorem is_flat_ratio neurite tol :
  let ext := principal_direction_extent (map coords (points neurite)) in
  (2 <= length ext)%nat ->
  exists s0 s1 rest,
    np_sort ext = s0 :: s1 :: rest
    /\ Permutation ext (s0 :: s1 :: rest)
    /\ Sorted Qle (s0 :: s1 :: rest)
    /\ is_flat principal_direction_extent neurite tol "ratio"
       = inr (np_less (np_divide s0 s1) tol)
    /\ (~ s1 == 0 ->
        (is_flat principal_direction_extent neurite tol "ratio" = inr true
         <-> s0 / s1 < tol)).
Proof.
  intros ext Hl.
  pose proof (np_sort_perm ext) as Hp.
  pose proof (np_sort_sorted ext) as Hs.
  assert (Hl' : length (np_sort ext) = length ext)
    by (symmetry; now apply Permutation_length).
  destruct (np_sort ext) as [|s0 [|s1 rest]] eqn:E;
    [simpl in Hl'; lia|simpl in Hl'; lia|].
  exists s0, s1, rest.
  assert (Hv : is_flat principal_direction_extent neurite tol "ratio"
               = inr (np_less (np_divide s0 s1) tol)).
  { unfold is_flat. fold ext. cbn [String.eqb Ascii.eqb Bool.eqb].
    rewrite E. reflexivity. }
  split; [reflexivity|]. split; [exact Hp|]. split; [exact Hs|].
  split; [exact Hv|].
  intros Hz. rewrite Hv. unfold np_divide.
  destruct (Qeq_bool s1 0) eqn:Ez;
    [apply Qeq_bool_iff in Ez; contradiction|].
  cbn [np_less]. split.
  - intros [= H]. now apply Qltb_spec.
  - intros H. f_equal. now apply Qltb_spec.
Qed.

(** C6.  With any method other than "ratio", the default "tolerance"
    among them, [is_flat] returns what it returns for "tolerance": True
    exactly when some extent is below [tol]. *)
Theorem is_flat_other_methods neurite tol method :
  method <> "ratio"%string ->
  let ext := principal_direction_extent (map coords (points neurite)) in
  is_flat principal_direction_extent neurite tol method
  = is_flat_default principal_direction_extent neurite tol
  /\ (exists b,
        is_flat principal_direction_extent neurite tol method = inr b)
  /\ (is_flat principal_direction_extent neurite tol method = inr true
      <-> exists e, In e ext /\ e < tol).
Proof.
  intros Hm ext.
  assert (Hv : is_flat principal_direction_extent neurite tol method
               = inr (existsb (fun e => Qltb e tol) ext)).
  { unfold is_flat. fold ext.
    apply String.eqb_neq in Hm. now rewrite Hm. }
  split; [rewrite Hv; reflexivity|]. split; [eauto|].
  rewrite Hv. split.
  - intros [= H]. apply existsb_exists in H.
    destruct H as (e & He & Hlt). exists e. split; [exact He|].
    now apply Qltb_spec.
  - intros (e & He & H). f_equal. apply existsb_exists.
    exists e. split; [exact He|]. now apply Qltb_spec.
Qed.

End FlatProperties.

(** The extents of a point set whose principal directions are the
    coordinate axes: the spread of each coordinate. *)
Definition spread (xs : list Q) : Q :=
  match xs with
  | [] => 0
  | x :: xs' => fold_left Qmax xs' x - fold_left Qmin xs' x
  end.

Definition axis_extent (pts : list vec) : list Q :=
  [spread (map vx pts); spread (map vy pts); spread (map vz pts)].

(** A neurite of one section from the origin to a given point. *)
Definition diagonal (x y z : Q) : SNode :=
  mkSNode None (Node [mkRow 0 0 0 1 3%Z; mkRow x y z 1 3%Z] []).

Example axis_extent_diagonal :
  axis_extent (map coords (points (diagonal 3 1 2))) = [3 - 0; 1 - 0; 2 - 0].
Proof. reflexivity. Qed.

(** Extents 1, 2, 3: the quotient 1/2 is below 0.6 and not below 0.4. *)
Example is_flat_ratio_examples :
  is_flat axis_extent (diagonal 3 1 2) (6 # 10) "ratio" = inr true
  /\ is_flat axis_extent (diagonal 3 1 2) (4 # 10) "ratio" = inr false.
Proof. split; reflexivity. Qed.

(** The two smallest extents are zero: 0/0 is nan in numpy, and nan is
    below nothing. *)
Example is_flat_ratio_degenerate :
  is_flat axis_extent (diagonal 3 0 0) 1 "ratio" = inr false.
Proof. reflexivity. Qed.

(** Extents 10, 10, 0.001 and 10, 10, 10 with tolerance 0.01, for the
    default method and for a method that does not exist. *)
Example is_flat_tolerance_examples :
  is_flat_default axis_extent (diagonal 10 10 (1 # 1000)) (1 # 100)
  = inr true
  /\ is_flat_default axis_extent (diagonal 10 10 10) (1 # 100) = inr false
  /\ is_flat axis_extent (diagonal 10 10 (1 # 1000)) (1 # 100) "garbage"
     = inr true
  /\ is_flat axis_extent (diagonal 10 10 10) (1 # 100) "garbage"
     = inr false.
Proof. repeat split; reflexivity. Qed.

Lemma is_flat_ratio_witness :
  exists s0 s1 rest,
    np_sort (axis_extent (map coords (points (diagonal 3 1 2))))
    = s0 :: s1 :: rest
    /\ Permutation (axis_extent (map coords (points (diagonal 3 1 2))))
         (s0 :: s1 :: rest)
    /\ Sorted Qle (s0 :: s1 :: rest)
    /\ is_flat axis_extent (diagonal 3 1 2) (6 # 10) "ratio"
       = inr (np_less (np_divide s0 s1) (6 # 10))
    /\ (~ s1 == 0 ->
        (is_flat axis_extent (diagonal 3 1 2) (6 # 10) "ratio" = inr true
         <-> s0 / s1 < 6 # 10)).
Proof.
  apply (is_flat_ratio axis_extent (diagonal 3 1 2) (6 # 10)).
  simpl. lia.
Defined.

Lemma is_flat_other_methods_witness :
  is_flat axis_extent (diagonal 10 10 (1 # 1000)) (1 # 100) "garbage"
  = is_flat_default axis_extent (diagonal 10 10 (1 # 1000)) (1 # 100)
  /\ (exists b,
        is_flat axis_extent (diagonal 10 10 (1 # 1000)) (1 # 100) "garbage"
        = inr b)
  /\ (is_flat axis_extent (diagonal 10 10 (1 # 1000)) (1 # 100) "garbage"
      = inr true
      <-> exists e,
            In e (axis_extent
                    (map coords (points (diagonal 10 10 (1 # 1000)))))
            /\ e < 1 # 100).
Proof.
  apply (is_flat_other_methods axis_extent (diagonal 10 10 (1 # 1000))
           (1 # 100) "garbage").
  discriminate.
Defined.

(** ** Back-tracking *)

(** Positions in [enumerate], in a prefix and in a filtered list. *)
Lemma In_combine_seq A (l : list A) s i x :
  In (i, x) (combine (seq s (length l)) l)
  <-> (s <= i)%nat /\ nth_error l (i - s) = Some x.
Proof.
  revert s. induction l as [|a l IH]; intros s; simpl.
  - split; [tauto|]. intros [_ H]. destruct (i - s)%nat; discriminate.
  - rewrite IH. split.
    + intros [[= <- <-]|[Hs H]].
      * split; [lia|]. now rewrite Nat.sub_diag.
      * split; [lia|].
        replace (i - s)%nat with (S (i - S s)) by lia. exact H.
    + intros [Hs H]. destruct (Nat.eq_dec i s) as [->|Hne].
      * left. rewrite Nat.sub_diag in H. simpl in H. congruence.
      * right. split; [lia|].
        replace (i - s)%nat with (S (i - S s)) in H by lia. exact H.
Qed.

Lemma In_enumerate A (l : list A) i x :
  In (i, x) (enumerate l) <-> nth_error l i = Some x.
Proof.
  unfold enumerate. rewrite In_combine_seq, Nat.sub_0_r.
  split; [tauto|]. split; [lia|assumption].
Qed.

Lemma In_firstn A (l : list A) n x :
  In x (firstn n l) <-> exists j, (j < n)%nat /\ nth_error l j = Some x.
Proof.
  revert l. induction n as [|n IH]; intros l.
  - simpl. split; [tauto|]. intros (j & Hj & _). lia.
  - destruct l as [|a l]; simpl.
    + split; [tauto|]. intros (j & _ & H). destruct j; discriminate.
    + rewrite IH. split.
      * intros [<-|(j & Hj & H)].
        -- exists 0%nat. split; [lia|reflexivity].
        -- exists (S j). split; [lia|exact H].
      * intros ([|j] & Hj & H).
        -- left. simpl in H. congruence.
        -- right. exists j. split; [lia|exact H].
Qed.

Lemma nth_error_filter_In A (f : A -> bool) l x :
  (exists i, nth_error (filter f l) i = Some x)
  <-> (exists a, nth_error l a = Some x) /\ f x = true.
Proof.
  split.
  - intros (i & H). apply nth_error_In, filter_In in H.
    destruct H as [H Hf]. split; [|exact Hf]. now apply In_nth_error.
  - intros [(a & H) Hf]. apply In_nth_error, filter_In.
    split; [|exact Hf]. eapply nth_error_In, H.
Qed.

(** A filter keeps the order: two entries at increasing positions of the
    filtered list are two kept entries at increasing positions of the
    list. *)
Lemma filter_order A (f : A -> bool) l x y :
  (exists j i,
      (j < i)%nat
      /\ nth_error (filter f l) j = Some x
      /\ nth_error (filter f l) i = Some y)
  <-> (exists a b,
          (a < b)%nat
          /\ nth_error l a = Some x /\ nth_error l b = Some y
          /\ f x = true /\ f y = true).
Proof.
  induction l as [|h t IH].
  - simpl. split.
    + intros (j & i & _ & H & _). destruct j; discriminate.
    + intros (a & b & _ & H & _). destruct a; discriminate.
  - split.
    + intros (j & i & Hji & Hj & Hi). simpl in Hj, Hi.
      destruct (f h) eqn:Eh.
      * destruct i as [|i]; [lia|]. simpl in Hi.
        destruct j as [|j].
        -- simpl in Hj. injection Hj as ->.
           destruct (proj1 (nth_error_filter_In _ f t y) (ex_intro _ i Hi))
             as [(b & Hb) Hfy].
           exists 0%nat, (S b). repeat split; try assumption. lia.
        -- simpl in Hj.
           destruct (proj1 IH) as (a & b & Hab & Ha & Hb & Hfx & Hfy).
           { exists j, i. repeat split; try assumption. lia. }
           exists (S a), (S b). repeat split; try assumption. lia.
      * destruct (proj1 IH) as (a & b & Hab & Ha & Hb & Hfx & Hfy).
        { exists j, i. repeat split; assumption. }
        exists (S a), (S b). repeat split; try assumption. lia.
    + intros (a & b & Hab & Ha & Hb & Hfx & Hfy).
      destruct b as [|b]; [lia|]. simpl in Hb.
      destruct a as [|a].
      * simpl in Ha. injection Ha as ->. simpl. rewrite Hfx.
        destruct (proj2 (nth_error_filter_In _ f t y)) as (i & Hi).
        { split; [now exists b|exact Hfy]. }
        exists 0%nat, (S i). repeat split; try assumption. lia.
      * simpl in Ha.
        destruct (proj2 IH) as (j & i & Hji & Hj & Hi).
        { exists a, b. repeat split; try assumption. lia. }
        simpl. destruct (f h).
        -- exists (S j), (S i). repeat split; try assumption. lia.
        -- exists j, i. repeat split; assumption.
Qed.

(** The segments of a section are its pairs of consecutive rows. *)
Lemma nth_error_pair sec a p q :
  nth_error (pair sec) a = Some (p, q)
  <-> nth_error sec a = Some p /\ nth_error sec (S a) = Some q.
Proof.
  unfold pair. destruct sec as [|r sec]; simpl.
  - split; [destruct a; discriminate|]. intros [H _].
    destruct a; discriminate.
  - revert r a. induction sec as [|r' sec IH]; intros r a.
    + simpl. split; [destruct a; discriminate|].
      intros [_ H]. destruct a; discriminate.
    + destruct a as [|a].
      * simpl. split; [intros [= -> ->]; now split|].
        intros [[= ->] [= ->]]. reflexivity.
      * simpl. rewrite (IH r' a). reflexivity.
Qed.

Lemma max_radius_Qmax seg :
  max_radius seg = Qmax (COLS.R (fst seg)) (COLS.R (snd seg)).
Proof.
  unfold max_radius, Qgtb, Qmax, GenericMinMax.gmax.
  destruct (COLS.R (fst seg) ?= COLS.R (snd seg)) eqn:C.
  - apply Qeq_alt in C.
    assert (L : COLS.R (snd seg) <= COLS.R (fst seg))
      by (rewrite C; apply Qle_refl).
    apply Qle_bool_iff in L. now rewrite L.
  - apply Qlt_alt in C.
    destruct (Qle_bool _ _) eqn:E; [|reflexivity].
    apply Qle_bool_iff in E. exfalso. exact (Qlt_not_le _ _ C E).
  - apply Qgt_alt in C. apply Qlt_le_weak, Qle_bool_iff in C.
    now rewrite C.
Qed.

(** What the filter of [is_back_tracking] takes for a segment of zero
    length: every coordinate of the first end point is within
    1e-08 + 1e-05 * |b| of the coordinate b of the second, which is
    [np.allclose] with numpy's default tolerances.  The bound grows with
    the coordinate, not with the length of the segment. *)
Definition within_tolerance (a b : Q) : Prop :=
  Qabs (a - b) <= (1 # 100000000) + (1 # 100000) * Qabs b.

Definition taken_for_one_point (p q : Row) : Prop :=
  within_tolerance (COLS.X p) (COLS.X q)
  /\ within_tolerance (COLS.Y p) (COLS.Y q)
  /\ within_tolerance (COLS.Z p) (COLS.Z q).

(** A segment whose end points differ in some coordinate. *)
Definition non_zero_length (p q : Row) : Prop :=
  ~ (COLS.X p == COLS.X q /\ COLS.Y p == COLS.Y q /\ COLS.Z p == COLS.Z q).

Lemma isclose_spec a b : isclose a b = true <-> within_tolerance a b.
Proof. unfold isclose, within_tolerance, atol, rtol. apply Qle_bool_iff. Qed.

Lemma is_not_zero_seg_spec p q :
  is_not_zero_seg (p, q) = true <-> ~ taken_for_one_point p q.
Proof.
  unfold is_not_zero_seg, allclose, taken_for_one_point, coords, vx, vy, vz.
  cbn [fst snd]. rewrite negb_true_iff, <- not_true_iff_false.
  rewrite !andb_true_iff, !isclose_spec. tauto.
Qed.

(** A segment that the filter keeps has a length that is not zero. *)
Lemma kept_is_non_zero p q :
  ~ taken_for_one_point p q -> non_zero_length p q.
Proof.
  intros H (X & Y & Z0). apply H.
  assert (W : forall a b, a == b -> within_tolerance a b).
  { intros a b E. unfold within_tolerance.
    assert (D : a - b == 0) by (rewrite E; ring).
    rewrite D. change (Qabs 0) with 0.
    pose proof (Qabs_nonneg b) as N.
    set (x := Qabs b) in *. clearbody x. lra. }
  repeat split; now apply W.
Qed.

Section BackTrackingProperties.

Variable norm : vec -> Q.
Variable vector_projection : vec -> vec -> vec.

(** The later segment [seg_i] folds back on the earlier segment [seg_j]:
    with C the midpoint of [seg_j], P the end point of [seg_i] and prj the
    projection of CP on the direction of [seg_j], (a) the distance of P
    from the axis of [seg_j] is at most the sum of the larger radii of the
    two segments, (b) prj is shorter than 0.55 times [seg_j], and (c) the
    directions of the two segments have a negative dot product. *)
Definition folds_back (seg_i seg_j : segment) : Prop :=
  norm (vsub (seg_CP seg_i seg_j) (seg_prj vector_projection seg_i seg_j))
  <= Qmax (COLS.R (fst seg_i)) (COLS.R (snd seg_i))
     + Qmax (COLS.R (fst seg_j)) (COLS.R (snd seg_j))
  /\ norm (seg_prj vector_projection seg_i seg_j)
     < (55 # 100) * norm (seg_S1S2 seg_j)
  /\ ~ 0 <= dot (seg_S1S2 seg_j) (seg_S1S2 seg_i).

Lemma is_inside_cylinder_spec seg1 seg2 :
  is_inside_cylinder norm vector_projection seg1 seg2 = true
  <-> folds_back seg1 seg2.
Proof.
  unfold is_inside_cylinder, is_seg1_overlapping_with_seg2,
    is_in_the_same_verse, is_seg2_within_seg1_radius, folds_back.
  fold (seg_C seg2). fold (seg_CP seg1 seg2). fold (seg_S1S2 seg2).
  fold (seg_S1S2 seg1). fold (seg_prj vector_projection seg1 seg2).
  rewrite !max_radius_Qmax.
  rewrite andb_true_iff, negb_true_iff.
  split.
  - intros [Hv Ho].
    destruct (Qle_bool _ _) eqn:Er in Ho; [|discriminate].
    simpl in Ho. apply Qle_bool_iff in Er. apply Qltb_spec in Ho.
    repeat split; try assumption.
    intros H. apply Qgeb_spec in H. congruence.
  - intros (Hr & Hp & Hv). split.
    + destruct (Qgeb _ _) eqn:E; [|reflexivity].
      apply Qgeb_spec in E. contradiction.
    + apply Qle_bool_iff in Hr. rewrite Hr. simpl. now apply Qltb_spec.
Qed.

Lemma section_back_tracks_spec sec :
  section_back_tracks norm vector_projection sec = true
  <-> exists j i seg_j seg_i,
        (j < i)%nat
        /\ nth_error (filter is_not_zero_seg (pair sec)) j = Some seg_j
        /\ nth_error (filter is_not_zero_seg (pair sec)) i = Some seg_i
        /\ folds_back seg_i seg_j.
Proof.
  unfold section_back_tracks.
  set (segs := filter is_not_zero_seg (pair sec)).
  rewrite existsb_exists. split.
  - intros ([i0 seg1] & Hin & H).
    apply In_enumerate in Hin. apply existsb_exists in H.
    destruct H as (seg2 & Hin2 & H). apply In_firstn in Hin2.
    destruct Hin2 as (j & Hj & Hseg2).
    exists j, (S i0), seg2, seg1.
    split; [lia|]. split; [exact Hseg2|]. split.
    + destruct segs; [destruct i0; discriminate|exact Hin].
    + now apply is_inside_cylinder_spec.
  - intros (j & i & seg_j & seg_i & Hji & Hj & Hi & H).
    destruct i as [|i0]; [lia|].
    exists (i0, seg_i). split.
    + apply In_enumerate. destruct segs; [discriminate|exact Hi].
    + apply existsb_exists. exists seg_j. split.
      * apply In_firstn. exists j. split; [lia|exact Hj].
      * now apply is_inside_cylinder_spec.
Qed.

Lemma is_back_tracking_false neurite :
  is_back_tracking norm vector_projection neurite = false
  <-> forall snode,
        In snode (iter_nodes neurite) ->
        (2 < length (value (node snode)))%nat ->
        section_back_tracks norm vector_projection (value (node snode))
        = false.
Proof.
  unfold is_back_tracking.
  rewrite <- not_true_iff_false, existsb_exists. split.
  - intros Hn snode Hin Hlen. apply not_true_iff_false. intros H.
    apply Hn. exists snode. split; [|exact H].
    apply filter_In. split; [exact Hin|]. now apply Nat.ltb_lt.
  - intros Hall (snode & Hin & H). apply filter_In in Hin.
    destruct Hin as [Hin Hlen]. apply Nat.ltb_lt in Hlen.
    rewrite (Hall snode Hin Hlen) in H. discriminate.
Qed.

(** C2 (amended).  [is_back_tracking] returns True exactly when some node
    with more than two sample points has, among the segments between
    consecutive points of its section that the zero-length filter keeps,
    an earlier one [seg_j] and a later one [seg_i] such that [seg_i] folds
    back on [seg_j] (conditions (a), (b) and (c) of [folds_back]).  The
    filter keeps a segment unless every coordinate of its first end point
    is within 1e-08 + 1e-05 * |b| of the coordinate b of its second end
    point; a kept segment has a length that is not zero.  A node that has
    such a pair settles the answer whatever nodes follow it; without any,
    the answer is False. *)
Theorem is_back_tracking_iff neurite :
  (is_back_tracking norm vector_projection neurite = true
   <-> exists snode,
         In snode (iter_nodes neurite)
         /\ (2 < length (value (node snode)))%nat
         /\ exists j i pj pj' pi pi',
              (j < i)%nat
              /\ nth_error (value (node snode)) j = Some pj
              /\ nth_error (value (node snode)) (S j) = Some pj'
              /\ nth_error (value (node snode)) i = Some pi
              /\ nth_error (value (node snode)) (S i) = Some pi'
              /\ ~ taken_for_one_point pj pj'
              /\ ~ taken_for_one_point pi pi'
              /\ non_zero_length pj pj'
              /\ non_zero_length pi pi'
              /\ folds_back (pi, pi') (pj, pj'))
  /\ (forall before snode after,
        filter (fun snode => (2 <? length (value (node snode)))%nat)
          (iter_nodes neurite) = before ++ snode :: after ->
        section_back_tracks norm vector_projection (value (node snode))
        = true ->
        is_back_tracking norm vector_projection neurite = true)
  /\ (is_back_tracking norm vector_projection neurite = false
      <-> forall snode,
            In snode (iter_nodes neurite) ->
            (2 < length (value (node snode)))%nat ->
            section_back_tracks norm vector_projection (value (node snode))
            = false).
Proof.
  split; [|split].
  - unfold is_back_tracking. rewrite existsb_exists. split.
    + intros (snode & Hin & H). apply filter_In in Hin.
      destruct Hin as [Hin Hlen]. apply Nat.ltb_lt in Hlen.
      exists snode. split; [exact Hin|]. split; [exact Hlen|].
      apply section_back_tracks_spec in H.
      destruct H as (j & i & seg_j & seg_i & Hji & Hj & Hi & Hf).
      destruct (proj1 (filter_order _ is_not_zero_seg
                           (pair (value (node snode))) seg_j seg_i))
        as (a & b & Hab & Ha & Hb & Hza & Hzb);
        [now exists j, i|].
      destruct seg_j as [pj pj'], seg_i as [pi pi'].
      apply nth_error_pair in Ha, Hb.
      apply is_not_zero_seg_spec in Hza, Hzb.
      pose proof (kept_is_non_zero _ _ Hza).
      pose proof (kept_is_non_zero _ _ Hzb).
      exists a, b, pj, pj', pi, pi'. tauto.
    + intros (snode & Hin & Hlen & j & i & pj & pj' & pi & pi'
              & Hji & Hj & Hj' & Hi & Hi' & Hzj & Hzi & _ & _ & Hf).
      apply is_not_zero_seg_spec in Hzj, Hzi.
      exists snode. split.
      * apply filter_In. split; [exact Hin|]. now apply Nat.ltb_lt.
      * apply section_back_tracks_spec.
        destruct (proj2 (filter_order _ is_not_zero_seg
                           (pair (value (node snode))) (pj, pj') (pi, pi')))
          as (j' & i' & Hji' & Hj0 & Hi0).
        { exists j, i. repeat split; try assumption;
            apply nth_error_pair; now split. }
        exists j', i', (pj, pj'), (pi, pi'). tauto.
  - intros before snode after E H. unfold is_back_tracking.
    rewrite E, existsb_app.
    cbn [existsb]. rewrite H. now rewrite orb_true_r.
  - apply is_back_tracking_false.
Qed.

(** The rows of a section run along one direction: every segment is a
    non-negative multiple of one vector. *)
Definition same_direction (sec : list Row) : Prop :=
  exists d : vec,
    forall seg, In seg (pair sec) ->
      exists k,
        0 <= k
        /\ vx (seg_S1S2 seg) == k * vx d
        /\ vy (seg_S1S2 seg) == k * vy d
        /\ vz (seg_S1S2 seg) == k * vz d.

Lemma is_inside_cylinder_same_verse seg1 seg2 :
  0 <= dot (seg_S1S2 seg2) (seg_S1S2 seg1) ->
  is_inside_cylinder norm vector_projection seg1 seg2 = false.
Proof.
  intros H. apply not_true_iff_false. intros Hc.
  apply is_inside_cylinder_spec in Hc.
  destruct Hc as (_ & _ & Hv). contradiction.
Qed.

Lemma same_direction_dot sec seg1 seg2 :
  same_direction sec ->
  In seg1 (pair sec) -> In seg2 (pair sec) ->
  0 <= dot (seg_S1S2 seg2) (seg_S1S2 seg1).
Proof.
  intros (d & Hd) H1 H2.
  destruct (Hd seg1 H1) as (k1 & Hk1 & X1 & Y1 & Z1).
  destruct (Hd seg2 H2) as (k2 & Hk2 & X2 & Y2 & Z2).
  unfold dot. rewrite X1, Y1, Z1, X2, Y2, Z2.
  assert (E : k2 * vx d * (k1 * vx d) + k2 * vy d * (k1 * vy d)
              + k2 * vz d * (k1 * vz d)
              == (k2 * k1) * (vx d * vx d + vy d * vy d + vz d * vz d))
    by ring.
  rewrite E.
  apply Qmult_le_0_compat; [now apply Qmult_le_0_compat|].
  generalize (vx d) (vy d) (vz d). intros x y z. nra.
Qed.

(** C3.  A pair of segments whose directions have a non-negative dot
    product is never flagged; so the predicate is False on every neurite
    whose sections each run along one direction, however close their
    segments are. *)
Theorem same_verse_never_flagged :
  (forall seg1 seg2,
      0 <= dot (seg_S1S2 seg2) (seg_S1S2 seg1) ->
      is_inside_cylinder norm vector_projection seg1 seg2 = false)
  /\ (forall neurite,
        (forall snode,
            In snode (iter_nodes neurite) ->
            same_direction (value (node snode))) ->
        is_back_tracking norm vector_projection neurite = false).
Proof.
  split; [exact is_inside_cylinder_same_verse|].
  intros neurite Hall.
  apply is_back_tracking_false. intros snode Hin _.
  apply not_true_iff_false. intros H.
  apply section_back_tracks_spec in H.
  destruct H as (j & i & seg_j & seg_i & _ & Hj & Hi & _ & _ & Hv).
  apply Hv.
  apply (same_direction_dot (value (node snode))).
  - now apply Hall.
  - apply nth_error_In in Hi. now apply filter_In in Hi.
  - apply nth_error_In in Hj. now apply filter_In in Hj.
Qed.

End BackTrackingProperties.

(** Instances for examples: the projection of [v1] on [v2],
    (v1.v2 / v2.v2) v2, and the norm of a vector that lies along one
    coordinate axis, which is the absolute value of its one coordinate
    that is not zero. *)
Definition projection_on (v1 v2 : vec) : vec :=
  vscale (dot v1 v2 / dot v2 v2) v2.

Definition norm_on_axis (v : vec) : Q := Qabs (vx v) + Qabs (vy v) + Qabs (vz v).

(** A neurite of one section of radius 1 through the given heights on the
    y axis. *)
Definition section_along (ys : list Q) : SNode :=
  mkSNode None (Node (map (fun y => mkRow 0 y 0 1 3%Z) ys) []).

(** The third segment comes back to the middle of the first: flagged.
    When it ends more than 0.55 of the first segment's length away from
    the middle of the first, it is not. *)
Example is_back_tracking_reversal :
  is_back_tracking norm_on_axis projection_on (section_along [0; 10; 20; 5])
  = true
  /\ is_back_tracking norm_on_axis projection_on
       (section_along [0; 10; 20; -1]) = false.
Proof. split; reflexivity. Qed.

(** The condition of is_back_tracking when "non-zero-length" is read as
    it is written: the two segments have end points that differ. *)
Definition folds_back_somewhere (norm : vec -> Q)
  (vector_projection : vec -> vec -> vec) (neurite : SNode) : Prop :=
  exists snode,
    In snode (iter_nodes neurite)
    /\ (2 < length (value (node snode)))%nat
    /\ exists j i pj pj' pi pi',
         (j < i)%nat
         /\ nth_error (value (node snode)) j = Some pj
         /\ nth_error (value (node snode)) (S j) = Some pj'
         /\ nth_error (value (node snode)) i = Some pi
         /\ nth_error (value (node snode)) (S i) = Some pi'
         /\ non_zero_length pj pj'
         /\ non_zero_length pi pi'
         /\ folds_back norm vector_projection (pi, pi') (pj, pj').

(** A section that goes up by 5 and comes back by 4, far from the origin
    and at the origin. *)
Definition far_fold : SNode := section_along [1000000; 1000005; 1000001].
Definition near_fold : SNode := section_along [0; 5; 1].

(** C2 (counterexample).  At y = 1000000 the two segments, of lengths 5
    and 4, are within the filter's bound of about 10 and are dropped, so
    the predicate is False, although the second segment folds back on the
    first: its end point is on the axis of the first (a), 1.5 from its
    midpoint against 0.55 * 5 (b), and the two run in opposite directions
    (c).  The same section at the origin is flagged. *)
Lemma far_fold_not_flagged :
  is_back_tracking norm_on_axis projection_on far_fold = false
  /\ folds_back_somewhere norm_on_axis projection_on far_fold
  /\ ~ (is_back_tracking norm_on_axis projection_on far_fold = true
        <-> folds_back_somewhere norm_on_axis projection_on far_fold)
  /\ is_back_tracking norm_on_axis projection_on near_fold = true.
Proof.
  assert (F : is_back_tracking norm_on_axis projection_on far_fold = false)
    by (vm_compute; reflexivity).
  assert (C : folds_back_somewhere norm_on_axis projection_on far_fold).
  { exists far_fold. split; [now left|]. split; [simpl; lia|].
    exists 0%nat, 1%nat,
      (mkRow 0 1000000 0 1 3%Z), (mkRow 0 1000005 0 1 3%Z),
      (mkRow 0 1000005 0 1 3%Z), (mkRow 0 1000001 0 1 3%Z).
    split; [lia|]. do 4 (split; [reflexivity|]).
    split; [intros (_ & H & _); discriminate H|].
    split; [intros (_ & H & _); discriminate H|].
    split; [vm_compute; discriminate|].
    split; [vm_compute; reflexivity|].
    intros H. vm_compute in H. now apply H. }
  split; [exact F|]. split; [exact C|]. split.
  - intros [_ H]. specialize (H C). rewrite F in H. discriminate.
  - vm_compute. reflexivity.
Qed.

(** Coincident points make a segment the filter drops; so does a point
    closer to its predecessor than numpy's tolerance. *)
Example is_not_zero_seg_examples :
  is_not_zero_seg (mkRow 0 10 0 1 3%Z, mkRow 0 10 0 1 3%Z) = false
  /\ is_not_zero_seg (mkRow 0 10 0 1 3%Z, mkRow 0 (10 - (1 # 1000000000)) 0 1 3%Z)
     = false
  /\ is_not_zero_seg (mkRow 0 10 0 1 3%Z, mkRow 0 11 0 1 3%Z) = true.
Proof. repeat split; reflexivity. Qed.

Lemma same_direction_along_increasing :
  same_direction (value (node (section_along [0; 1; 2; 3]))).
Proof.
  exists (0, 1, 0). intros seg Hin.
  assert (E : vx (seg_S1S2 seg) == 0 /\ vy (seg_S1S2 seg) == 1
              /\ vz (seg_S1S2 seg) == 0).
  { simpl in Hin. destruct Hin as [<-|[<-|[<-|[]]]]; repeat split. }
  destruct E as (X & Y & Z0).
  exists 1. rewrite X, Y, Z0. repeat split; try reflexivity.
  discriminate.
Qed.

Lemma same_verse_never_flagged_witness :
  is_back_tracking norm_on_axis projection_on (section_along [0; 1; 2; 3])
  = false.
Proof.
  apply (same_verse_never_flagged norm_on_axis projection_on).
  intros snode [<-|[]]. exact same_direction_along_increasing.
Defined.

(** * Further properties of the layout *)

(** ** The fill pass never stops short of the estimate *)

Lemma _total_rectangles_node v cs :
  _total_rectangles (Node v cs)
  = (list_sum (map (fun c => S (_total_rectangles c)) cs)
     + (if 2 <=? length cs then 2 else 0))%nat.
Proof.
  unfold _total_rectangles. cbn [n_segments n_bifurcations].
  destruct (2 <=? length cs)%nat.
  - induction cs as [|c cs IH]; simpl in *; lia.
  - induction cs as [|c cs IH]; simpl in *; lia.
Qed.

Section LowerBound.

Variable segment_length : Row -> Row -> Q.
Variable scale_ : Q.
Variable spacing : Q * Q.
Hypothesis spacing_x : ~ fst spacing == 0.

Lemma connector_length offsets new_offsets :
  (length (connector spacing offsets new_offsets) <= 1)%nat.
Proof.
  unfold connector. destruct (negb _); simpl; lia.
Qed.

(** The loop writes at least the vertical polygon and the estimate of
    each child. *)
Lemma children_trace_at_least v offsets cs :
  Forall
    (fun c =>
       forall o,
         (_total_rectangles c
          <= length (emitted segment_length scale_ spacing c o))%nat) cs ->
  forall start_x,
    (list_sum (map (fun c => S (_total_rectangles c)) cs)
     <= length
          (children_trace segment_length scale_ spacing
             (emitted segment_length scale_ spacing) v offsets cs start_x))%nat.
Proof.
  induction 1 as [|c cs Hc _ IH]; intros start_x; [simpl; lia|].
  cbn [children_trace map list_sum length].
  rewrite !length_app.
  specialize (IH (start_x + of_int (n_terminations c) * fst spacing)).
  specialize
    (Hc (_update_offsets start_x spacing (n_terminations c) offsets
           (segment_length v (value c)))).
  unfold list_sum in *. cbn [fold_right]. lia.
Qed.

(** Whatever the tree, the fill pass has at least as many polygons to
    write as the estimate counts: below a node with two or more children
    the first and the last child are off the node's axis. *)
Lemma emitted_at_least t :
  forall offsets,
    (_total_rectangles t
     <= length (emitted segment_length scale_ spacing t offsets))%nat.
Proof.
  induction t as [v cs IH] using Tree_ind'.
  intros offsets. rewrite _total_rectangles_node.
  destruct (Nat.leb_spec 2 (length cs)) as [L|L].
  2:{ rewrite Nat.add_0_r. cbn [emitted].
      now apply children_trace_at_least. }
  destruct cs as [|c1 rest]; [simpl in L; lia|].
  destruct (exists_last (l := rest)) as (mid & ck & ->);
    [intros ->; simpl in L; lia|].
  inversion IH as [|? ? H1 Hrest]; subst.
  apply Forall_app in Hrest. destruct Hrest as [Hmid Hk].
  inversion Hk as [|? ? Hck _]; subst.
  pose proof (emitted_child segment_length scale_ spacing v [] c1
                (mid ++ [ck]) offsets) as E.
  cbv zeta in E. cbn [app] in E. rewrite E. clear E.
  rewrite (connector_differ spacing)
    by (apply (first_child_x segment_length spacing v c1 (mid ++ [ck])
                 offsets); [exact spacing_x|now destruct mid]).
  cbn [children_trace app length].
  rewrite !length_app. cbn [length].
  rewrite children_trace_app, length_app.
  cbn [children_trace].
  change (_update_offsets
            (start_after spacing mid
               (start_after spacing [c1]
                  (span_start spacing (Node v (c1 :: mid ++ [ck])) offsets)))
            spacing (n_terminations ck) offsets
            (segment_length v (value ck)))
    with (offsets_after segment_length spacing
            (Node v ((c1 :: mid) ++ [ck])) offsets (c1 :: mid) ck).
  rewrite (connector_differ spacing)
    by (apply (last_child_x segment_length spacing v (c1 :: mid) ck offsets);
        [exact spacing_x|discriminate]).
  cbn [length app]. rewrite !length_app. cbn [length].
  pose proof
    (children_trace_at_least v offsets mid Hmid
       (start_after spacing [c1]
          (span_start spacing (Node v (c1 :: mid ++ [ck])) offsets))) as Bm.
  specialize
    (H1 (offsets_after segment_length spacing (Node v (c1 :: mid ++ [ck]))
           offsets [] c1)).
  specialize
    (Hck (offsets_after segment_length spacing
            (Node v ((c1 :: mid) ++ [ck])) offsets (c1 :: mid) ck)).
  cbn [map]. rewrite map_app. cbn [map].
  change (list_sum (?x :: ?l)) with (x + list_sum l)%nat.
  rewrite list_sum_app.
  unfold list_sum in *. cbn [fold_right]. cbn [app] in Hck. lia.
Qed.

End LowerBound.

Section FillOrRaise.

Variable segment_length : Row -> Row -> Q.

Lemma emitted_nonempty scale_ spacing t offsets :
  children t <> [] ->
  (1 <= length (emitted segment_length scale_ spacing t offsets))%nat.
Proof.
  destruct t as [v [|c cs]]; [intros H; now contradiction H|]. intros _.
  cbn [emitted children_trace length]. lia.
Qed.

(** The layout of a single tree either fills the buffer to its last entry
    or raises IndexError: the fill pass has at least as many polygons to
    write as the buffer has entries, so [generate] returns exactly when
    the two numbers agree, and then the write index is the length of the
    buffer and the buffer holds the polygons written, in order. *)
Theorem generate_fills_or_raises t :
  let E := emitted segment_length 1 (40, 0) t (0, 0) in
  (_total_rectangles t <= length E)%nat
  /\ (forall d',
        generate segment_length (Dendrogram_init (PyTree t)) = inr d' ->
        _n d' = length (_rectangles d')
        /\ length (_rectangles d') = (n_segments t + 2 * n_bifurcations t)%nat
        /\ _rectangles d' = map snd E)
  /\ (generate segment_length (Dendrogram_init (PyTree t)) = inl IndexError
      <-> (_total_rectangles t < length E)%nat).
Proof.
  intros E.
  assert (B : (_total_rectangles t <= length E)%nat).
  { apply emitted_at_least. simpl. discriminate. }
  destruct (generate_tree segment_length t) as [Hok Hov]. fold E in Hok, Hov.
  split; [exact B|]. split.
  - intros d' Hd.
    destruct (le_lt_dec (length E) (_total_rectangles t)) as [L|L].
    + destruct (Hok L) as (d & Hd0 & Hn & Hl & Hf).
      rewrite Hd0 in Hd. injection Hd as <-.
      split; [lia|]. split; [unfold _total_rectangles in Hl; lia|].
      rewrite <- Hf. symmetry. apply firstn_all2. lia.
    + rewrite (Hov L) in Hd. discriminate.
  - split; [|exact Hov].
    intros Hd.
    destruct (le_lt_dec (length E) (_total_rectangles t)) as [L|L];
      [|exact L].
    destruct (Hok L) as (d & Hd0 & _). rewrite Hd0 in Hd. discriminate.
Qed.

(** [generate] does not reset the write index: on a tree with at least
    one segment, a second call on the object that the first call left
    raises IndexError at its first write. *)
Theorem generate_twice_raises t d' :
  children t <> [] ->
  generate segment_length (Dendrogram_init (PyTree t)) = inr d' ->
  generate segment_length d' = inl IndexError.
Proof.
  intros Hc Hd.
  destruct (generate_fills_or_raises t) as (_ & Hfill & _).
  destruct (Hfill d' Hd) as (Hn & _).
  unfold generate in Hd. cbn [_obj Dendrogram_init] in Hd.
  destruct (_generate_dendro segment_length _ t (40, 0) (0, 0))
    as [e|s] eqn:Hrun; [discriminate|].
  injection Hd as <-.
  apply run_success in Hrun; [|exact Hc].
  destruct Hrun as [_ (_ & _ & Hs & Ho & _)].
  cbn [scale _obj Dendrogram_init] in Hs, Ho.
  unfold generate. cbn [_obj set_trees]. rewrite Ho.
  cbn [_n _rectangles set_trees] in Hn.
  assert (R0 : room (set_trees s [(0%nat, length (_rectangles s))]) 0)
    by (unfold room; cbn [_n _rectangles set_trees]; lia).
  destruct (run_spec_all segment_length (40, 0) t _ (0, 0) R0) as [_ Hov].
  rewrite Hov; [reflexivity|].
  unfold room. cbn [_n _rectangles set_trees scale].
  pose proof (emitted_nonempty (scale s) (40, 0) t (0, 0) Hc). lia.
Qed.

End FillOrRaise.

Lemma generate_twice_raises_witness :
  children two_level <> []
  /\ generate axis_length two_level_start
     = inr (result_or two_level_start (generate axis_length two_level_start))
  /\ generate axis_length
       (result_or two_level_start (generate axis_length two_level_start))
     = inl IndexError.
Proof.
  assert (H : generate axis_length two_level_start
              = inr (result_or two_level_start
                       (generate axis_length two_level_start)))
    by (vm_compute; reflexivity).
  split; [discriminate|]. split; [exact H|].
  apply (generate_twice_raises axis_length two_level _); [discriminate|exact H].
Defined.

(** ** Sibling subtrees side by side *)

Section Spans.

Variable segment_length : Row -> Row -> Q.
Variable spacing : Q * Q.

(** The right end of the horizontal span of a node laid out at [offsets];
    [span_start] is its left end, the value [_spacingx] returns. *)
Definition span_end (t : Tree Row) (offsets : Q * Q) : Q :=
  fst offsets + of_int (n_terminations t) * fst spacing / 2.

Lemma child_span_start t offsets pre child :
  span_start spacing child
    (offsets_after segment_length spacing t offsets pre child)
  == start_after spacing pre (span_start spacing t offsets).
Proof.
  unfold offsets_after, _update_offsets.
  unfold span_start at 1. cbn [fst]. field.
Qed.

Lemma child_span_end t offsets pre child :
  span_end child (offsets_after segment_length spacing t offsets pre child)
  == start_after spacing (pre ++ [child]) (span_start spacing t offsets).
Proof.
  unfold offsets_after, _update_offsets, span_end. cbn [fst].
  unfold start_after. rewrite fold_left_app. cbn [fold_left]. field.
Qed.

(** The spans of the children of a node tile the span of the node, from
    left to right in the order of the children: the first child's span
    starts where the node's starts, every child's span starts where its
    left sibling's ends, and the last child's span ends where the node's
    ends.  With a spacing that is not negative every child's span lies
    inside the node's. *)
Theorem sibling_spans_tile v pre child post offsets :
  let t := Node v (pre ++ child :: post) in
  let at_ := offsets_after segment_length spacing t offsets in
  span_start spacing child (at_ pre child)
  == span_start spacing t offsets + of_int (leaves pre) * fst spacing
  /\ span_end child (at_ pre child)
     == span_end t offsets - of_int (leaves post) * fst spacing
  /\ (forall next post',
        post = next :: post' ->
        span_start spacing next (at_ (pre ++ [child]) next)
        == span_end child (at_ pre child))
  /\ (0 <= fst spacing ->
      span_start spacing t offsets <= span_start spacing child (at_ pre child)
      /\ span_start spacing child (at_ pre child)
         <= span_end child (at_ pre child)
      /\ span_end child (at_ pre child) <= span_end t offsets).
Proof.
  intros t at_. unfold at_.
  assert (L : span_start spacing child
                (offsets_after segment_length spacing t offsets pre child)
              == span_start spacing t offsets
                 + of_int (leaves pre) * fst spacing).
  { rewrite child_span_start. apply start_after_closed. }
  assert (R : span_end child
                (offsets_after segment_length spacing t offsets pre child)
              == span_end t offsets - of_int (leaves post) * fst spacing).
  { rewrite child_span_end, start_after_closed.
    unfold span_start, span_end, t.
    rewrite n_terminations_node by (destruct pre; discriminate).
    fold (leaves (pre ++ child :: post)) (leaves (pre ++ [child])).
    rewrite !leaves_app.
    change (leaves (child :: post))
      with (n_terminations child + leaves post)%nat.
    change (leaves [child]) with (n_terminations child + 0)%nat.
    rewrite !of_int_add. change (of_int 0) with 0. field. }
  split; [exact L|]. split; [exact R|]. split.
  - intros next post' _. rewrite child_span_start, child_span_end.
    reflexivity.
  - intros Hs. rewrite L, R.
    assert (W : span_end child
                  (offsets_after segment_length spacing t offsets pre child)
                == span_start spacing child
                     (offsets_after segment_length spacing t offsets pre
                        child)
                   + of_int (n_terminations child) * fst spacing).
    { unfold span_start, span_end. field. }
    rewrite L, R in W.
    pose proof (Qmult_le_0_compat _ _ (of_int_nonneg (leaves pre)) Hs).
    pose proof (Qmult_le_0_compat _ _ (of_int_nonneg (leaves post)) Hs).
    pose proof (Qmult_le_0_compat _ _
                  (of_int_nonneg (n_terminations child)) Hs).
    set (a := of_int (leaves pre) * fst spacing) in *.
    set (b := of_int (leaves post) * fst spacing) in *.
    set (c := of_int (n_terminations child) * fst spacing) in *.
    set (l := span_start spacing t offsets) in *.
    set (r := span_end t offsets) in *.
    clearbody a b c l r. repeat split; lra.
Qed.

End Spans.

Lemma sibling_spans_tile_witness :
  span_start (40, 0) two_level (0, 0)
  <= span_start (40, 0) two_level_left
       (offsets_after axis_length (40, 0)
          (Node (mkRow 0 0 0 2 3%Z) ([] ++ two_level_left :: [leaf_at 20]))
          (0, 0) [] two_level_left).
Proof.
  apply (sibling_spans_tile axis_length (40, 0) (mkRow 0 0 0 2 3%Z) []
           two_level_left [leaf_at 20] (0, 0)).
  discriminate.
Defined.

(** ** The layout of a neuron *)

Section NeuronLayout.

Variable segment_length : Row -> Row -> Q.

(** The loop over the neurites in [generate], by itself. *)
Fixpoint for_neurite (ns : list (Tree Row)) (self : Dendrogram)
  (n_previous : nat) {struct ns} : Exc Dendrogram :=
  match ns with
  | [] => inr self
  | neurite :: ns' =>
      do self <- _generate_dendro segment_length self neurite (40, 0) (0, 0);
      let self := set_trees self (_trees self ++ [(n_previous, _n self)]) in
      let self := set_dims self (_dims self ++ [_max_dims self]) in
      let self := set_max_dims self (0, 0) in
      for_neurite ns' self (_n self)
  end.

Lemma generate_neurites self :
  isinstance_Tree (_obj self) = false ->
  generate segment_length self
  = match getattr_neurites (_obj self) with
    | inl e => inl e
    | inr ns => for_neurite ns self 0
    end.
Proof.
  intros H. unfold generate.
  destruct (_obj self) as [t|ns|[ns|]]; try discriminate; reflexivity.
Qed.

(** The polygons of one neurite, laid out from the origin. *)
Definition neurite_trace (n : Tree Row) : list (kind * polygon) :=
  emitted segment_length 1 (40, 0) n (0, 0).

(** The slices [n_previous : self._n] the loop records, the write index
    being [n] when it starts. *)
Fixpoint slices (ns : list (Tree Row)) (n_previous n : nat)
  : list (nat * nat) :=
  match ns with
  | [] => []
  | x :: ns' =>
      (n_previous, n + length (neurite_trace x))%nat
      :: slices ns' (n + length (neurite_trace x))
           (n + length (neurite_trace x))
  end.

Lemma for_neurite_spec ns :
  forall self n_previous,
    room self 0 -> scale self = 1 ->
    (room self (length (flat_map neurite_trace ns)) ->
     exists self',
       for_neurite ns self n_previous = inr self'
       /\ _n self' = (_n self + length (flat_map neurite_trace ns))%nat
       /\ _rectangles self'
          = splice (_rectangles self) (_n self)
              (map snd (flat_map neurite_trace ns))
       /\ _trees self' = _trees self ++ slices ns n_previous (_n self)
       /\ length (_dims self') = (length (_dims self) + length ns)%nat
       /\ scale self' = 1
       /\ _obj self' = _obj self)
    /\ (~ room self (length (flat_map neurite_trace ns)) ->
        for_neurite ns self n_previous = inl IndexError).
Proof.
  induction ns as [|x ns IH]; intros self n_previous R0 Hs.
  - cbn [flat_map length for_neurite slices map]. split; intros R.
    + exists self. rewrite splice_nil, app_nil_r, !Nat.add_0_r. tauto.
    + contradiction.
  - cbn [flat_map for_neurite slices]. rewrite length_app.
    destruct (run_spec_all segment_length (40, 0) x self (0, 0) R0)
      as [Hok Hov].
    rewrite Hs in Hok, Hov. fold (neurite_trace x) in Hok, Hov.
    destruct (room_dec self (length (neurite_trace x))) as [Rx|Rx].
    2:{ rewrite (Hov Rx). split; [intros R|reflexivity].
        exfalso. apply Rx. revert R. apply room_less. lia. }
    destruct (Hok Rx) as (s1 & -> & W).
    set (s2 := set_max_dims _ (0, 0)).
    assert (W2 : _n s2 = _n s1 /\ _rectangles s2 = _rectangles s1
                 /\ scale s2 = scale s1 /\ _obj s2 = _obj s1
                 /\ _trees s2 = _trees s1 ++ [(n_previous, _n s1)]
                 /\ _dims s2 = _dims s1 ++ [_max_dims s1])
      by (unfold s2; cbn; tauto).
    destruct W2 as (En & Er & Es & Eo & Et & Ed).
    pose proof W as (Hn & Hr & Hs1 & Ho & Ht & Hd).
    assert (R2 : room s2 0).
    { unfold room. rewrite En, Er.
      apply (room_after self s1 (neurite_trace x) 0); [|exact W].
      revert Rx. apply room_less. lia. }
    destruct (IH s2 (_n s2) R2) as [Iok Iov]; [congruence|].
    assert (Rs :
              room s2 (length (flat_map neurite_trace ns))
              <-> room self
                    (length (neurite_trace x)
                     + length (flat_map neurite_trace ns))).
    { unfold room. rewrite En, Er.
      rewrite (wrote_buffer_length self s1 _ Rx W), Hn. lia. }
    split; intros R.
    + destruct (Iok (proj2 Rs R))
        as (s3 & E3 & Hn3 & Hr3 & Ht3 & Hd3 & Hs3 & Ho3).
      exists s3. split; [exact E3|].
      split; [rewrite Hn3, En, Hn; lia|].
      split.
      { rewrite Hr3, Er, En, Hr, Hn, map_app.
        rewrite <- (length_map snd (neurite_trace x)).
        apply splice_splice. rewrite length_map. exact Rx. }
      split.
      { rewrite Ht3, Et, En, Ht, Hn, <- app_assoc. reflexivity. }
      split.
      { rewrite Hd3, Ed, length_app, Hd. cbn [length]. lia. }
      split; [exact Hs3|]. congruence.
    + apply Iov. intros R'. apply R. now apply Rs.
Qed.

End NeuronLayout.

Section NeuronLayoutProperties.

Variable segment_length : Row -> Row -> Q.

Lemma neurite_traces_at_least ns :
  (list_sum (map _total_rectangles ns)
   <= length (flat_map (neurite_trace segment_length) ns))%nat.
Proof.
  induction ns as [|x ns IH]; [simpl; lia|].
  cbn [map flat_map]. rewrite length_app.
  change (list_sum (?a :: ?l)) with (a + list_sum l)%nat.
  pose proof (emitted_at_least segment_length 1 (40, 0)) as B.
  specialize (B ltac:(simpl; discriminate) x (0, 0)).
  unfold neurite_trace at 1. lia.
Qed.

(** Each recorded slice of the buffer holds the polygons of its
    neurite. *)
Lemma slices_hold ns :
  forall a (pre post : list polygon) i n x y,
    length pre = a ->
    nth_error ns i = Some n ->
    nth_error (slices segment_length ns a a) i = Some (x, y) ->
    firstn (y - x)
      (skipn x
         (pre ++ map snd (flat_map (neurite_trace segment_length) ns)
          ++ post))
    = map snd (neurite_trace segment_length n).
Proof.
  induction ns as [|m ns IH]; intros a pre post i n x y La Hn Hs.
  - destruct i; discriminate.
  - cbn [flat_map slices] in *. rewrite map_app, <- app_assoc.
    destruct i as [|i].
    + injection Hn as <-. injection Hs as <- <-.
      match goal with
      | |- context [skipn a (pre ++ ?X)] =>
          pose proof (skipn_app_exact _ pre X a 0 La) as S
      end.
      rewrite Nat.add_0_r in S. rewrite S. cbn [skipn].
      replace (a + length (neurite_trace segment_length m) - a)%nat
        with (length (map snd (neurite_trace segment_length m)))
        by (rewrite length_map; lia).
      now apply firstn_app_exact.
    + cbn [nth_error] in Hn, Hs.
      rewrite app_assoc.
      apply (IH (a + length (neurite_trace segment_length m))%nat
               (pre ++ map snd (neurite_trace segment_length m)) post i n x y);
        try assumption.
      rewrite length_app, length_map. lia.
Qed.

(** The layout of a neuron either fills the buffer to its last entry or
    raises IndexError.  When [generate] returns, the buffer holds the
    polygons of the neurites one after the other, each neurite laid out
    from the origin; [_trees] holds one slice per neurite, the slices
    follow each other from 0 to the end of the buffer, and each holds the
    polygons of its neurite; [_dims] holds one entry per neurite. *)
Theorem generate_neuron ns :
  let total := list_sum (map _total_rectangles ns) in
  let traces := flat_map (neurite_trace segment_length) ns in
  (total <= length traces)%nat
  /\ (forall d',
        generate segment_length (Dendrogram_init (PyNeuron ns)) = inr d' ->
        _n d' = length (_rectangles d')
        /\ length (_rectangles d') = total
        /\ _rectangles d' = map snd traces
        /\ _trees d' = slices segment_length ns 0 0
        /\ length (_dims d') = length ns
        /\ forall i n a b,
             nth_error ns i = Some n ->
             nth_error (_trees d') i = Some (a, b) ->
             firstn (b - a) (skipn a (_rectangles d'))
             = map snd (neurite_trace segment_length n))
  /\ (generate segment_length (Dendrogram_init (PyNeuron ns))
      = inl IndexError
      <-> (total < length traces)%nat).
Proof.
  intros total traces.
  pose proof (neurite_traces_at_least ns) as B. fold total traces in B.
  set (d := Dendrogram_init (PyNeuron ns)).
  assert (L : length (_rectangles d) = total) by apply repeat_length.
  assert (R0 : room d 0) by (unfold room; simpl; lia).
  destruct (for_neurite_spec segment_length ns d 0 R0 eq_refl)
    as [Hok Hov]. fold traces in Hok, Hov.
  assert (G : generate segment_length d
              = for_neurite segment_length ns d 0)
    by (now rewrite generate_neurites).
  rewrite G.
  assert (Rt : room d (length traces) <-> (length traces <= total)%nat)
    by (unfold room; rewrite L; simpl _n; lia).
  split; [exact B|]. split.
  - intros d' Hd.
    destruct (le_lt_dec (length traces) total) as [Le|Lt].
    2:{ rewrite Hov in Hd; [discriminate|]. rewrite Rt. lia. }
    destruct (Hok (proj2 Rt Le)) as (s & Es & Hn & Hr & Ht & Hdm & _).
    rewrite Es in Hd. injection Hd as <-.
    simpl _n in Hn, Hr, Ht. simpl _trees in Ht. simpl _dims in Hdm.
    assert (Hlen : length (_rectangles s) = total).
    { rewrite Hr, splice_length; [exact L|].
      rewrite length_map, L. simpl. exact Le. }
    assert (Hall : _rectangles s = map snd traces).
    { rewrite Hr. unfold splice. cbn [firstn app Nat.add].
      rewrite skipn_all2, app_nil_r; [reflexivity|].
      rewrite length_map, L. lia. }
    split; [lia|]. split; [exact Hlen|]. split; [exact Hall|].
    split; [exact Ht|]. split; [exact Hdm|].
    intros i n a b Hi Hs. rewrite Ht in Hs. rewrite Hall.
    pose proof (slices_hold ns 0 [] [] i n a b eq_refl Hi Hs) as S.
    cbn [app] in S. now rewrite app_nil_r in S.
  - split.
    + intros Hd.
      destruct (le_lt_dec (length traces) total) as [Le|Lt]; [|exact Lt].
      destruct (Hok (proj2 Rt Le)) as (s & Es & _).
      rewrite Es in Hd. discriminate.
    + intros Lt. apply Hov. rewrite Rt. lia.
Qed.

End NeuronLayoutProperties.

(** ** The horizontal extent of a layout *)

Lemma n_terminations_child A (v : A) (cs : list (Tree A)) c :
  In c cs -> (n_terminations c <= n_terminations (Node v cs))%nat.
Proof.
  intros Hin. rewrite n_terminations_node by (intros ->; contradiction).
  induction cs as [|d cs IH]; [contradiction|].
  cbn [map]. change (list_sum (?a :: ?l)) with (a + list_sum l)%nat.
  destruct Hin as [->|Hin]; [lia|]. specialize (IH Hin). lia.
Qed.

Lemma store_keeps_max_dims self p s :
  store self p = inr s -> _max_dims s = _max_dims self.
Proof.
  unfold store. destruct (setitem _ _ _); [discriminate|].
  intros [= <-]. reflexivity.
Qed.

Section MaxDims.

Variable segment_length : Row -> Row -> Q.
Variable spacing : Q * Q.
Hypothesis spacing_x : 0 <= fst spacing.

(** A call on a node whose span is not wider than the running maximum
    leaves the maximum as it is. *)
Definition keeps_max_x (t : Tree Row) : Prop :=
  forall self offsets self',
    _generate_dendro segment_length self t spacing offsets = inr self' ->
    of_int (n_terminations t) * fst spacing <= fst (_max_dims self) ->
    fst (_max_dims self') = fst (_max_dims self).

Lemma for_child_keeps_max_x v offsets radii_0 cs :
  Forall keeps_max_x cs ->
  forall self start_x self',
    for_child segment_length spacing v offsets radii_0 cs self start_x
    = inr self' ->
    (forall c, In c cs ->
       of_int (n_terminations c) * fst spacing <= fst (_max_dims self)) ->
    fst (_max_dims self') = fst (_max_dims self).
Proof.
  induction 1 as [|c cs Hc _ IH]; intros self start_x self' Hrun Hb.
  - injection Hrun as <-. reflexivity.
  - cbn [for_child] in Hrun.
    destruct (store self _) as [e|s1] eqn:E1; [discriminate|].
    apply store_keeps_max_dims in E1.
    set (s2 := if Qgtb _ _ then _ else incr_n s1) in Hrun.
    assert (M2 : fst (_max_dims s2) = fst (_max_dims self)).
    { unfold s2. destruct (Qgtb _ _); cbn; now rewrite E1. }
    destruct (_generate_dendro segment_length s2 c spacing _)
      as [e|s3] eqn:E3; [discriminate|].
    apply Hc in E3. rewrite M2 in E3.
    specialize (E3 (Hb c (or_introl eq_refl))).
    assert (M4 : forall s4,
               (if negb (Qeq_bool (fst offsets)
                           (fst (_update_offsets start_x spacing
                                   (n_terminations c) offsets
                                   (segment_length v (value c)))))
                then
                  match
                    store s3
                      (_horizontal_segment offsets
                         (_update_offsets start_x spacing
                            (n_terminations c) offsets
                            (segment_length v (value c))) spacing 0)
                  with
                  | inl e => inl e
                  | inr s => inr (incr_n s)
                  end
                else inr s3) = inr s4 ->
               fst (_max_dims s4) = fst (_max_dims self)).
    { intros s4. destruct (negb _).
      - destruct (store s3 _) as [e|s] eqn:E; [discriminate|].
        apply store_keeps_max_dims in E. intros [= <-]. cbn. congruence.
      - intros [= <-]. congruence. }
    destruct (if negb _ then _ else _) as [e|s4] eqn:E4 in Hrun;
      [discriminate|].
    apply M4 in E4.
    rewrite (IH _ _ _ Hrun); [exact E4|].
    intros d Hd. rewrite E4. apply Hb. now right.
Qed.

Lemma keeps_max_x_all t : keeps_max_x t.
Proof.
  induction t as [v cs IH] using Tree_ind'.
  intros self offsets self' Hrun Hb.
  rewrite _generate_dendro_unfold in Hrun.
  assert (M : snd (_spacingx (Node v cs) (_max_dims self) (fst offsets)
                     (fst spacing)) = _max_dims self).
  { unfold _spacingx. cbn [snd].
    apply Qgtb_false in Hb. now rewrite Hb. }
  rewrite M in Hrun.
  rewrite (for_child_keeps_max_x _ _ _ _ IH _ _ _ Hrun); [reflexivity|].
  intros c Hc. cbn [_max_dims set_max_dims].
    eapply Qle_trans; [|exact Hb].
    apply Qmult_le_compat_r; [|exact spacing_x].
    unfold of_int. rewrite <- Zle_Qle.
    apply inj_le. now apply n_terminations_child.
Qed.

End MaxDims.

Section Extent.

Variable segment_length : Row -> Row -> Q.

(** When a call of [_generate_dendro] returns, the horizontal maximum
    [max_dims[0]] is the larger of its value before the call and the
    width of the span of the node, its number of leaves times the
    horizontal spacing: no node below is wider. *)
Theorem max_x_after_run spacing self t offsets self' :
  0 <= fst spacing ->
  _generate_dendro segment_length self t spacing offsets = inr self' ->
  fst (_max_dims self')
  = (if Qgtb (of_int (n_terminations t) * fst spacing) (fst (_max_dims self))
     then of_int (n_terminations t) * fst spacing
     else fst (_max_dims self))
  /\ fst (_max_dims self) <= fst (_max_dims self')
  /\ of_int (n_terminations t) * fst spacing <= fst (_max_dims self').
Proof.
  intros Hs Hrun.
  assert (E : fst (_max_dims self')
              = (if Qgtb (of_int (n_terminations t) * fst spacing)
                      (fst (_max_dims self))
                 then of_int (n_terminations t) * fst spacing
                 else fst (_max_dims self))).
  { destruct t as [v cs]. rewrite _generate_dendro_unfold in Hrun.
    assert (IH : Forall (keeps_max_x segment_length spacing) cs).
    { apply Forall_forall. intros c _.
      now apply keeps_max_x_all. }
    rewrite (for_child_keeps_max_x _ _ _ _ _ _ IH _ _ _ Hrun).
    - unfold _spacingx. cbn [snd _max_dims set_max_dims].
      now destruct (Qgtb _ _).
    - intros c Hc. unfold _spacingx. cbn [snd _max_dims set_max_dims].
      assert (Hle : of_int (n_terminations c) * fst spacing
                    <= of_int (n_terminations (Node v cs)) * fst spacing).
      { apply Qmult_le_compat_r; [|exact Hs].
        unfold of_int. rewrite <- Zle_Qle.
        apply inj_le. now apply n_terminations_child. }
      destruct (Qgtb _ _) eqn:G; cbn [fst]; [exact Hle|].
      apply Qgtb_false in G. eapply Qle_trans; eassumption. }
  split; [exact E|]. rewrite E.
  destruct (Qgtb _ _) eqn:G.
  - apply Qgtb_spec in G. split; [now apply Qlt_le_weak|apply Qle_refl].
  - apply Qgtb_false in G. split; [apply Qle_refl|exact G].
Qed.

(** A call that returns from an object whose write index is within the
    buffer wrote its whole trace. *)
Lemma run_returns spacing self t offsets self' :
  room self 0 ->
  _generate_dendro segment_length self t spacing offsets = inr self' ->
  room self (length (emitted segment_length (scale self) spacing t offsets))
  /\ wrote self self' (emitted segment_length (scale self) spacing t offsets).
Proof.
  intros R0 Hrun.
  destruct (run_spec_all segment_length spacing t self offsets R0)
    as [Hok Hov].
  destruct (room_dec self
              (length (emitted segment_length (scale self) spacing t
                         offsets))) as [R|R].
  - destruct (Hok R) as (s & E & W).
    rewrite E in Hrun. injection Hrun as <-. now split.
  - rewrite (Hov R) in Hrun. discriminate.
Qed.

Lemma for_neurite_widths ns :
  forall self n_previous self',
    room self 0 ->
    for_neurite segment_length ns self n_previous = inr self' ->
    fst (_max_dims self) = 0 ->
    map fst (_dims self')
    = map fst (_dims self)
      ++ map (fun n => of_int (n_terminations n) * 40) ns.
Proof.
  induction ns as [|x ns IH]; intros self n_previous self' R0 Hrun Hm.
  - injection Hrun as <-. cbn [map]. now rewrite app_nil_r.
  - cbn [for_neurite] in Hrun.
    destruct (_generate_dendro segment_length self x (40, 0) (0, 0))
      as [e|s1] eqn:E1; [discriminate|].
    destruct (max_x_after_run (40, 0) self x (0, 0) s1) as (Mx & _);
      [discriminate|exact E1|].
    destruct (run_returns (40, 0) self x (0, 0) s1 R0 E1) as (R & W).
    assert (G : Qgtb (of_int (n_terminations x) * fst (40, 0))
                  (fst (_max_dims self)) = true).
    { rewrite Hm. apply Qgtb_spec.
      apply Qmult_lt_0_compat; [|reflexivity].
      apply of_int_pos, n_terminations_pos. }
    rewrite G in Mx. cbn [fst] in Mx.
    apply IH in Hrun.
    + cbn [_dims _max_dims set_max_dims set_dims set_trees] in Hrun.
      rewrite Hrun, map_app. cbn [map]. rewrite Mx.
      destruct W as (_ & _ & _ & _ & _ & ->).
      now rewrite <- app_assoc.
    + unfold room. cbn [_n _rectangles set_max_dims set_dims set_trees].
      apply (room_after self s1
               (emitted segment_length (scale self) (40, 0) x (0, 0)) 0);
        [|exact W].
      revert R. apply room_less. lia.
    + reflexivity.
Qed.

(** After the layout of a neuron, the first component of the entry of
    [_dims] for a neurite is the width of the neurite's span: the number
    of its leaves times the horizontal spacing 40. *)
Theorem generate_neuron_widths ns d' :
  generate segment_length (Dendrogram_init (PyNeuron ns)) = inr d' ->
  map fst (_dims d') = map (fun n => of_int (n_terminations n) * 40) ns.
Proof.
  intros Hd. rewrite generate_neurites in Hd by reflexivity.
  cbn [getattr_neurites _obj Dendrogram_init] in Hd.
  apply for_neurite_widths in Hd.
  - exact Hd.
  - unfold room. simpl. lia.
  - reflexivity.
Qed.

End Extent.

Lemma max_x_after_run_witness :
  0 <= fst (40, 0)
  /\ _generate_dendro axis_length two_level_start two_level (40, 0) (0, 0)
     = inr two_level_done
  /\ of_int (n_terminations two_level) * fst (40, 0)
     <= fst (_max_dims two_level_done).
Proof.
  split; [discriminate|]. split; [exact two_level_runs|].
  apply (max_x_after_run axis_length (40, 0) two_level_start two_level
           (0, 0) two_level_done); [discriminate|exact two_level_runs].
Defined.

(** A neuron of two neurites. *)
Definition two_neurites : PyObj := PyNeuron [two_level; narrow_sibling].

Definition two_neurites_done : Dendrogram :=
  result_or (Dendrogram_init two_neurites)
    (generate axis_length (Dendrogram_init two_neurites)).

Lemma two_neurites_run :
  generate axis_length (Dendrogram_init two_neurites) = inr two_neurites_done.
Proof. vm_compute. reflexivity. Qed.

Lemma generate_neuron_widths_witness :
  generate axis_length (Dendrogram_init two_neurites) = inr two_neurites_done
  /\ map fst (_dims two_neurites_done) = [of_int 3 * 40; of_int 2 * 40].
Proof.
  split; [exact two_neurites_run|].
  exact (generate_neuron_widths axis_length [two_level; narrow_sibling]
           two_neurites_done two_neurites_run).
Defined.

(** ** Laying out an object that is neither a tree nor a neuron *)

Section OtherObjects.

Variable segment_length : Row -> Row -> Q.

Lemma neurite_traces_empty ns :
  flat_map (neurite_trace segment_length) ns = []
  <-> Forall (fun n => children n = []) ns.
Proof.
  induction ns as [|[v cs] ns IH]; cbn [flat_map].
  - split; [constructor|reflexivity].
  - split.
    + intros H. apply app_eq_nil in H. destruct H as [Hx Hr].
      constructor; [|now apply IH].
      destruct cs; [reflexivity|discriminate].
    + intros H. inversion H as [|? ? Hc Hr]; subst.
      cbn [children] in Hc. subst cs. now apply IH.
Qed.

(** On an object that is neither a Tree nor a Neuron, whose buffer is
    empty, [generate] raises AttributeError when the object has no
    [neurites]; when it has, [generate] returns, with the buffer still
    empty and one empty slice per neurite, if every neurite is a single
    node, and raises IndexError if some neurite has a child. *)
Theorem generate_other_object obj :
  isinstance_Tree obj = false ->
  isinstance_Neuron obj = false ->
  (getattr_neurites obj = inl AttributeError ->
   generate segment_length (Dendrogram_init obj) = inl AttributeError)
  /\ (forall ns,
        getattr_neurites obj = inr ns ->
        (Forall (fun n => children n = []) ns ->
         exists d',
           generate segment_length (Dendrogram_init obj) = inr d'
           /\ _rectangles d' = []
           /\ _n d' = 0%nat
           /\ _trees d' = map (fun _ => (0%nat, 0%nat)) ns)
        /\ (~ Forall (fun n => children n = []) ns ->
            generate segment_length (Dendrogram_init obj)
            = inl IndexError)).
Proof.
  intros HT HN. destruct obj as [t|ns0|o]; try discriminate.
  rewrite generate_neurites by reflexivity.
  cbn [_obj Dendrogram_init].
  split; [now intros ->|].
  intros ns Hns. rewrite Hns.
  set (d := Dendrogram_init (PyOther o)).
  assert (R0 : room d 0) by (unfold room; simpl; lia).
  destruct (for_neurite_spec segment_length ns d 0 R0 eq_refl)
    as [Hok Hov].
  split.
  - intros Hall. apply neurite_traces_empty in Hall.
    rewrite Hall in Hok.
    destruct (Hok R0) as (s & -> & Hn & Hr & Ht & _).
    exists s. split; [reflexivity|]. split; [exact Hr|]. split; [exact Hn|].
    rewrite Ht. cbn [_trees d Dendrogram_init app _n].
    clear -Hall. induction ns as [|x ns IH]; [reflexivity|].
    cbn [flat_map] in Hall. apply app_eq_nil in Hall.
    destruct Hall as [Hx Hr]. cbn [slices map]. rewrite Hx.
    cbn [length Nat.add]. f_equal. now apply IH.
  - intros Hsome. apply Hov. intros R. apply Hsome.
    apply neurite_traces_empty. unfold room in R. simpl in R.
    destruct (flat_map _ ns); [reflexivity|simpl in R; lia].
Qed.

End OtherObjects.

(** An object with a [neurites] attribute that holds one tree. *)
Lemma generate_other_object_witness :
  generate axis_length (Dendrogram_init (PyOther (Some [two_level])))
  = inl IndexError.
Proof.
  apply (proj2 (generate_other_object axis_length
                  (PyOther (Some [two_level])) eq_refl eq_refl)
           [two_level] eq_refl).
  intros H. inversion H as [|? ? Hc _]. discriminate.
Defined.

(** ** Displacement *)

(** Polygons with equal coordinates, vertex by vertex. *)
Definition same_vertex (v w : vertex) : Prop :=
  fst v == fst w /\ snd v == snd w.

Definition same_polygons (a b : list polygon) : Prop :=
  Forall2 (Forall2 same_vertex) a b.

Lemma displace_pointwise (f g : vertex -> vertex) rectangles :
  (forall v, same_vertex (f v) (g v)) ->
  same_polygons (map (map f) rectangles) (map (map g) rectangles).
Proof.
  intros H. induction rectangles as [|p ps IH]; [constructor|].
  constructor; [|exact IH].
  induction p as [|v p IHp]; constructor; auto.
Qed.

(** [displace] keeps the number of polygons and the number of vertices of
    each, and displacing by (0, 0) leaves every coordinate as it is (in
    binary64 too: adding 0. to a float gives a float equal to it). *)
Theorem displace_by_zero rectangles t :
  length (displace rectangles t) = length rectangles
  /\ map (@length vertex) (displace rectangles t)
     = map (@length vertex) rectangles
  /\ same_polygons (displace rectangles (0, 0)) rectangles.
Proof.
  unfold displace. split; [apply length_map|]. split.
  - rewrite map_map. apply map_ext. intros p. apply length_map.
  - rewrite <- (map_id rectangles) at 2.
    rewrite <- (map_ext _ _ (@map_id vertex)).
    apply displace_pointwise. intros v. split; cbn [fst snd]; ring.
Qed.

(** * Further properties of the checks *)

(** ** Monotonicity and the tolerance, and over subtrees *)

Lemma section_rises_tolerance sec tol tol' :
  tol <= tol' ->
  section_rises sec tol = false -> section_rises sec tol' = false.
Proof.
  intros Ht H. apply not_true_iff_false. intros H'.
  apply not_true_iff_false in H. apply H.
  apply section_rises_spec in H'. apply section_rises_spec.
  destruct H' as (i & a & b & Ha & Hb & Hlt).
  exists i, a, b. repeat split; try assumption.
  eapply Qle_lt_trans; [|exact Hlt]. lra.
Qed.

Lemma is_monotonic_nodes_tolerance nodes tol tol' :
  tol <= tol' ->
  is_monotonic_nodes nodes tol = inr true ->
  is_monotonic_nodes nodes tol' = inr true.
Proof.
  intros Ht. induction nodes as [|n rest IH]; [auto|].
  cbn [is_monotonic_nodes].
  destruct (section_rises (value (node n)) tol) eqn:E; [discriminate|].
  rewrite (section_rises_tolerance _ _ _ Ht E).
  destruct (parent n) as [p|]; [|exact IH].
  destruct (getitem (value (node n)) 0) as [e|first]; [discriminate|].
  destruct (getitem_last (value p)) as [e|final]; [discriminate|].
  destruct (Qgtb (COLS.R first) (COLS.R final + tol)) eqn:G;
    [discriminate|].
  apply Qgtb_false in G.
  assert (G' : Qgtb (COLS.R first) (COLS.R final + tol') = false)
    by (apply Qgtb_false; lra).
  rewrite G'. exact IH.
Qed.

(** A neurite that is monotonic for a tolerance is monotonic for every
    larger one. *)
Theorem is_monotonic_tolerance neurite tol tol' :
  tol <= tol' ->
  is_monotonic neurite tol = inr true ->
  is_monotonic neurite tol' = inr true.
Proof. apply is_monotonic_nodes_tolerance. Qed.

Lemma is_monotonic_tolerance_witness :
  is_monotonic thick_child 1 = inr true.
Proof.
  apply (is_monotonic_tolerance thick_child (1 # 2) 1);
    [discriminate|reflexivity].
Defined.

Lemma is_monotonic_nodes_app l1 l2 tol :
  is_monotonic_nodes (l1 ++ l2) tol = inr true
  <-> is_monotonic_nodes l1 tol = inr true
      /\ is_monotonic_nodes l2 tol = inr true.
Proof.
  induction l1 as [|n l1 IH]; cbn [app is_monotonic_nodes].
  - tauto.
  - destruct (section_rises _ _); [split; [|intros []]; discriminate|].
    destruct (parent n) as [p|]; [|exact IH].
    destruct (getitem _ _); [split; [|intros []]; discriminate|].
    destruct (getitem_last _); [split; [|intros []]; discriminate|].
    destruct (Qgtb _ _); [split; [|intros []]; discriminate|exact IH].
Qed.

Lemma is_monotonic_nodes_flat_map (f : Tree (list Row) -> list SNode) cs tol :
  is_monotonic_nodes (flat_map f cs) tol = inr true
  <-> forall c, In c cs -> is_monotonic_nodes (f c) tol = inr true.
Proof.
  induction cs as [|c cs IH]; cbn [flat_map].
  - split; [intros _ c []|reflexivity].
  - rewrite is_monotonic_nodes_app, IH. split.
    + intros [Hc Hr] d [<-|Hd]; auto.
    + intros H. split; [apply H; now left|].
      intros d Hd. apply H. now right.
Qed.

(** A tree is monotonic exactly when its root section passes the checks
    of one node (within the section, and against its parent's last
    sample) and every child subtree, taken with the root as its parent,
    is monotonic. *)
Theorem is_monotonic_subtrees up sec cs tol :
  is_monotonic (mkSNode up (Node sec cs)) tol = inr true
  <-> is_monotonic_nodes [mkSNode up (Node sec cs)] tol = inr true
      /\ forall c,
           In c cs ->
           is_monotonic (mkSNode (Some (Node sec cs)) c) tol = inr true.
Proof.
  unfold is_monotonic, iter_nodes. cbn [parent node ipreorder].
  change (mkSNode up (Node sec cs)
          :: flat_map (ipreorder (Some (Node sec cs))) cs)
    with ([mkSNode up (Node sec cs)]
          ++ flat_map (ipreorder (Some (Node sec cs))) cs).
  rewrite is_monotonic_nodes_app, is_monotonic_nodes_flat_map.
  reflexivity.
Qed.

(** ** Flatness and the tolerance *)

(** A neurite that is flat for a tolerance is flat, by the same method,
    for every larger one. *)
Theorem is_flat_tolerance
  (principal_direction_extent : list vec -> list Q) neurite tol tol' method :
  tol <= tol' ->
  is_flat principal_direction_extent neurite tol method = inr true ->
  is_flat principal_direction_extent neurite tol' method = inr true.
Proof.
  intros Ht. unfold is_flat.
  destruct (String.eqb method "ratio").
  - destruct (getitem _ 0) as [e|e0]; [discriminate|].
    destruct (getitem _ 1) as [e|e1]; [discriminate|].
    intros [= H]. f_equal.
    destruct (np_divide e0 e1); cbn [np_less] in *; try assumption.
    apply Qltb_spec in H. apply Qltb_spec. lra.
  - intros [= H]. f_equal.
    apply existsb_exists in H. destruct H as (e & He & H).
    apply existsb_exists. exists e. split; [exact He|].
    apply Qltb_spec in H. apply Qltb_spec. lra.
Qed.

Lemma is_flat_tolerance_witness :
  is_flat axis_extent (diagonal 3 1 2) 1 "ratio" = inr true.
Proof.
  apply (is_flat_tolerance axis_extent (diagonal 3 1 2) (6 # 10) 1 "ratio");
    [discriminate|reflexivity].
Defined.

(** With method "ratio" and fewer than two extents, [sorted_ext[1]] (or
    [sorted_ext[0]]) is out of range. *)
Theorem is_flat_ratio_needs_two
  (principal_direction_extent : list vec -> list Q) neurite tol :
  (length (principal_direction_extent (map coords (points neurite))) < 2)%nat
  <-> is_flat principal_direction_extent neurite tol "ratio"
      = inl IndexError.
Proof.
  unfold is_flat. cbn [String.eqb Ascii.eqb Bool.eqb].
  set (ext := principal_direction_extent _).
  pose proof (Permutation_length (np_sort_perm ext)) as L.
  destruct (np_sort ext) as [|s0 [|s1 rest]]; cbn in *.
  - split; [reflexivity|lia].
  - split; [reflexivity|lia].
  - split; [lia|discriminate].
Qed.

(** ** Back-tracking: short sections and repeated points *)

Lemma pair_length sec : length (pair sec) = (length sec - 1)%nat.
Proof.
  unfold pair. etransitivity; [apply length_combine|].
  destruct sec as [|r sec]; [reflexivity|]. cbn [tl length]. lia.
Qed.

Lemma pair_cons a b l : pair (a :: b :: l) = (a, b) :: pair (b :: l).
Proof. reflexivity. Qed.

Lemma pair_app_cons pre p rest :
  pair (pre ++ p :: rest) = pair (pre ++ [p]) ++ pair (p :: rest).
Proof.
  induction pre as [|a pre IH]; [reflexivity|].
  destruct pre as [|b pre]; [reflexivity|].
  cbn [app] in *. rewrite !pair_cons, IH. reflexivity.
Qed.

Lemma isclose_refl a : isclose a a = true.
Proof.
  unfold isclose. apply Qle_bool_iff.
  assert (E : a - a == 0) by ring. rewrite E.
  change (Qabs 0) with 0.
  pose proof (Qabs_nonneg a). unfold atol, rtol.
  set (x := Qabs a) in *. clearbody x. lra.
Qed.

Lemma is_not_zero_seg_same p : is_not_zero_seg (p, p) = false.
Proof.
  unfold is_not_zero_seg, allclose. cbn [fst snd].
  now rewrite !isclose_refl.
Qed.

Section BackTrackingShapes.

Variable norm : vec -> Q.
Variable vector_projection : vec -> vec -> vec.

Lemma section_back_tracks_short sec :
  (length sec <= 2)%nat ->
  section_back_tracks norm vector_projection sec = false.
Proof.
  intros L. unfold section_back_tracks.
  assert (Lp : (length (filter is_not_zero_seg (pair sec)) <= 1)%nat).
  { eapply Nat.le_trans; [apply filter_length_le|].
    rewrite pair_length. lia. }
  destruct (filter is_not_zero_seg (pair sec)) as [|s [|s' l]];
    [reflexivity|reflexivity|simpl in Lp; lia].
Qed.

(** The filter on the number of sample points changes no answer: a
    section of one or two points has at most one segment and is never
    flagged, so [is_back_tracking] is the disjunction of the test of one
    section over all the nodes. *)
Theorem is_back_tracking_all_nodes neurite :
  is_back_tracking norm vector_projection neurite
  = existsb
      (fun snode =>
         section_back_tracks norm vector_projection (value (node snode)))
      (iter_nodes neurite).
Proof.
  unfold is_back_tracking.
  induction (iter_nodes neurite) as [|n l IH]; [reflexivity|].
  cbn [filter existsb].
  destruct (Nat.ltb_spec 2 (length (value (node n)))) as [L|L].
  - cbn [existsb]. now rewrite IH.
  - rewrite section_back_tracks_short by exact L. exact IH.
Qed.

(** A sample point that repeats its predecessor changes nothing: the
    zero-length segment between the two is dropped before any pair is
    tested. *)
Theorem repeated_point_ignored pre p post :
  filter is_not_zero_seg (pair (pre ++ p :: p :: post))
  = filter is_not_zero_seg (pair (pre ++ p :: post))
  /\ section_back_tracks norm vector_projection (pre ++ p :: p :: post)
     = section_back_tracks norm vector_projection (pre ++ p :: post).
Proof.
  assert (E : filter is_not_zero_seg (pair (pre ++ p :: p :: post))
              = filter is_not_zero_seg (pair (pre ++ p :: post))).
  { rewrite (pair_app_cons pre p (p :: post)), (pair_app_cons pre p post).
    rewrite !filter_app. f_equal.
    change (pair (p :: p :: post)) with ((p, p) :: pair (p :: post)).
    cbn [filter]. now rewrite is_not_zero_seg_same. }
  split; [exact E|].
  unfold section_back_tracks. now rewrite E.
Qed.

End BackTrackingShapes.

(** * The vertical extent of a layout *)

Section Depth.

Variable segment_length : Row -> Row -> Q.
Variable spacing : Q * Q.

(** The vertical offsets of the nodes below [t], the vertical offset of
    [t] being [y], in the order of the layout. *)
Fixpoint depths (t : Tree Row) (y : Q) {struct t} : list Q :=
  match t with
  | Node v cs =>
      flat_map
        (fun c =>
           (y + snd spacing * 2 + segment_length v (value c))
           :: depths c (y + snd spacing * 2 + segment_length v (value c)))
        cs
  end.

(** [m] is the largest of [m0] and the numbers [ys]. *)
Definition largest (m m0 : Q) (ys : list Q) : Prop :=
  m0 <= m /\ (forall y, In y ys -> y <= m) /\ (m = m0 \/ In m ys).

Lemma largest_nil m : largest m m [].
Proof.
  split; [apply Qle_refl|]. split; [intros y []|now left].
Qed.

Lemma largest_app m0 m1 m2 ys zs :
  largest m1 m0 ys -> largest m2 m1 zs -> largest m2 m0 (ys ++ zs).
Proof.
  intros (L1 & U1 & C1) (L2 & U2 & C2). split; [|split].
  - eapply Qle_trans; eassumption.
  - intros y Hy. apply in_app_or in Hy. destruct Hy as [Hy|Hy].
    + eapply Qle_trans; [apply U1, Hy|exact L2].
    + apply U2, Hy.
  - destruct C2 as [->|C2]; [|right; apply in_or_app; now right].
    destruct C1 as [->|C1]; [now left|].
    right. apply in_or_app. now left.
Qed.

Definition tracks_depth (t : Tree Row) : Prop :=
  forall self offsets self',
    _generate_dendro segment_length self t spacing offsets = inr self' ->
    largest (snd (_max_dims self')) (snd (_max_dims self))
      (depths t (snd offsets)).

Lemma for_child_tracks_depth v offsets radii_0 cs :
  Forall tracks_depth cs ->
  forall self start_x self',
    for_child segment_length spacing v offsets radii_0 cs self start_x
    = inr self' ->
    largest (snd (_max_dims self')) (snd (_max_dims self))
      (depths (Node v cs) (snd offsets)).
Proof.
  induction 1 as [|c cs Hc _ IH]; intros self start_x self' Hrun.
  - injection Hrun as <-. apply largest_nil.
  - cbn [for_child] in Hrun. cbn [depths flat_map].
    set (y' := snd offsets + snd spacing * 2 + segment_length v (value c))
      in *.
    destruct (store self _) as [e|s1] eqn:E1; [discriminate|].
    apply store_keeps_max_dims in E1.
    set (s2 := if Qgtb _ _ then _ else incr_n s1) in Hrun.
    assert (M2 : largest (snd (_max_dims s2)) (snd (_max_dims self)) [y']).
    { unfold s2. cbn [_max_dims incr_n set_n]. rewrite E1.
      destruct (Qgtb y' (snd (_max_dims self))) eqn:G;
        cbn [_max_dims set_max_dims snd].
      - apply Qgtb_spec in G. split; [now apply Qlt_le_weak|].
        split; [|right; now left].
        intros y [<-|[]]. apply Qle_refl.
      - change (_max_dims (incr_n s1)) with (_max_dims s1). rewrite E1.
        apply Qgtb_false in G. split; [apply Qle_refl|].
        split; [|now left]. intros y [<-|[]]. exact G. }
    destruct (_generate_dendro segment_length s2 c spacing _)
      as [e|s3] eqn:E3; [discriminate|].
    apply Hc in E3. cbn [snd _update_offsets] in E3. fold y' in E3.
    destruct (if negb _ then _ else _) as [e|s4] eqn:E4 in Hrun;
      [discriminate|].
    assert (M4 : _max_dims s4 = _max_dims s3).
    { destruct (negb _).
      - destruct (store s3 _) as [e|s] eqn:E; [discriminate|].
        apply store_keeps_max_dims in E. injection E4 as <-. exact E.
      - now injection E4 as <-. }
    apply IH in Hrun. rewrite M4 in Hrun.
    apply (largest_app _ _ _ ([y'] ++ depths c y') _
             (largest_app _ _ _ _ _ M2 E3) Hrun).
Qed.

Lemma tracks_depth_all t : tracks_depth t.
Proof.
  induction t as [v cs IH] using Tree_ind'.
  intros self offsets self' Hrun.
  rewrite _generate_dendro_unfold in Hrun.
  apply (for_child_tracks_depth _ _ _ _ IH) in Hrun.
  assert (E : snd (_max_dims
                     (set_max_dims self
                        (snd (_spacingx (Node v cs) (_max_dims self)
                                (fst offsets) (fst spacing)))))
              = snd (_max_dims self)).
  { unfold _spacingx. cbn [snd _max_dims set_max_dims].
    now destruct (Qgtb _ _). }
  now rewrite E in Hrun.
Qed.

(** When a call of [_generate_dendro] returns, the vertical maximum
    [max_dims[1]] is the largest of its value before the call and the
    vertical offsets of all the nodes below the node of the call: it is
    not below any of them, and it is one of them unless none exceeds the
    value before. *)
Theorem max_y_after_run self t offsets self' :
  _generate_dendro segment_length self t spacing offsets = inr self' ->
  snd (_max_dims self) <= snd (_max_dims self')
  /\ (forall y, In y (depths t (snd offsets)) -> y <= snd (_max_dims self'))
  /\ (snd (_max_dims self') = snd (_max_dims self)
      \/ In (snd (_max_dims self')) (depths t (snd offsets))).
Proof. apply tracks_depth_all. Qed.

End Depth.

Lemma max_y_after_run_witness :
  snd (_max_dims two_level_start) <= snd (_max_dims two_level_done)
  /\ (forall y,
        In y (depths axis_length (40, 0) two_level (snd (0, 0))) ->
        y <= snd (_max_dims two_level_done))
  /\ (snd (_max_dims two_level_done) = snd (_max_dims two_level_start)
      \/ In (snd (_max_dims two_level_done))
           (depths axis_length (40, 0) two_level (snd (0, 0)))).
Proof.
  exact (max_y_after_run axis_length (40, 0) two_level_start two_level
           (0, 0) two_level_done two_level_runs).
Defined.
